(** * Gossip node of simcl2/node_asyncio.py

    A shallow embedding of the [Node] servicer: its neighbor list, its set
    of already received message ids, the per-node send semaphore, the
    detached fan-out tasks it spawns, and the two RPC handlers
    [SendMessage] and [UpdateNeighbors].  Relay tasks
    ([_send_gossip_to_peer]) are modelled with an explicit clock and an
    explicit outcome for the outbound call; the SQLite mirror of the
    neighbor table is modelled as an explicit durable store. *)

From Stdlib Require Import ZArith QArith Qround String.
From stdpp Require Import base list gmap sets strings pretty.

Local Open Scope Z_scope.

(** ** Data model *)

(** [MAX_CONCURRENT_SENDS = 125] *)
Definition MAX_CONCURRENT_SENDS : nat := 125.

(** gossip_pb2.GossipMessage *)
Record GossipMessage := mkGossipMessage {
  message : string;
  sender_id : string;
  timestamp : Z;        (* time.time_ns() of the sender *)
  latency_ms : Q;       (* edge weight of the incoming link *)
  round_count : Z
}.

(** gossip_pb2.Acknowledgment *)
Record Acknowledgment := mkAck { details : string }.

(** A fan-out started with [asyncio.create_task(self.gossip_message(message,
    sender_id, round))]: the task is detached, so it is recorded in the node
    and runs later against the neighbor list of that moment. *)
Record GossipJob := mkJob {
  gj_message : string;
  gj_sender : string;
  gj_round : Z
}.

(** The mutable state of a [Node] instance. [semaphore] is the current value
    of [asyncio.Semaphore(MAX_CONCURRENT_SENDS)]. *)
Record Node := mkNode {
  hostname : string;
  host : string;
  susceptible_nodes : list (string * Q);
  received_message_ids : gset string;
  semaphore : nat;
  tasks : list GossipJob
}.

Definition set_received (n : Node) (s : gset string) : Node :=
  mkNode (hostname n) (host n) (susceptible_nodes n) s (semaphore n) (tasks n).

Definition spawn (n : Node) (j : GossipJob) : Node :=
  mkNode (hostname n) (host n) (susceptible_nodes n) (received_message_ids n)
    (semaphore n) (tasks n ++ [j]).

(** [Node.__init__] with an empty or absent [ned.db]. *)
Definition init_node (hn h : string) (nbrs : list (string * Q)) : Node :=
  mkNode hn h nbrs ∅ MAX_CONCURRENT_SENDS [].

Inductive EventType := Initiate | Received | Duplicate.

(** The JSON record printed by [_log_event] (the human-readable [detail]
    text is left out). *)
Record Event := mkEvent {
  ev_message : string;
  ev_sender_id : string;
  ev_receiver_id : string;
  ev_received_timestamp : Z;
  ev_propagation_time : option Q;
  ev_incoming_link_latency : option Q;
  ev_round_count : Z;
  ev_event_type : EventType
}.

Definition _log_event (self : Node) (msg sender : string) (received_timestamp : Z)
    (propagation_time incoming_link_latency : option Q) (event_type : EventType)
    (round : Z) : Event :=
  mkEvent msg sender (host self) received_timestamp propagation_time
    incoming_link_latency round event_type.

Definition quoted (s : string) : string := String.append "'" (String.append s "'").

(** [(received_timestamp - request.timestamp) / 1e6], in milliseconds. *)
Definition propagation_ms (received_timestamp sent : Z) : Q :=
  (inject_Z (received_timestamp - sent) / inject_Z 1000000)%Q.

(** ** [Node.SendMessage]

    [received_timestamp] is the value of [time.time_ns()] read on entry. *)
Definition SendMessage (self : Node) (request : GossipMessage)
    (received_timestamp : Z) : Node * Event * Acknowledgment :=
  let msg := message request in
  let sid := sender_id request in
  let incoming_link_latency := latency_ms request in
  let incoming_round_count := round_count request in
  if String.eqb sid (host self) then
    (* Case 1: Initial message *)
    let self1 := set_received self ({[ msg ]} ∪ received_message_ids self) in
    let ev := _log_event self1 msg sid received_timestamp None None Initiate 0 in
    (spawn self1 (mkJob msg sid 0), ev,
     mkAck (String.append "Done propagate! "
              (String.append (host self) (String.append " received: " (quoted msg)))))
  else if bool_decide (msg ∈ received_message_ids self) then
    (* Case 2: Duplicate message *)
    let ev := _log_event self msg sid received_timestamp None
                (Some incoming_link_latency) Duplicate incoming_round_count in
    (self, ev,
     mkAck (String.append "Duplicate message ignored by ("
              (String.append (host self) ")")))
  else
    (* Case 3: New message *)
    let self1 := set_received self ({[ msg ]} ∪ received_message_ids self) in
    let propagation_time := propagation_ms received_timestamp (timestamp request) in
    let ev := _log_event self1 msg sid received_timestamp (Some propagation_time)
                (Some incoming_link_latency) Received incoming_round_count in
    let new_round_count := incoming_round_count + 1 in
    (spawn self1 (mkJob msg sid new_round_count), ev,
     mkAck (String.append (host self) (String.append " received: " (quoted msg)))).

(** ** Python exceptions

    [Raise e] is an exception of class [Exception] carrying its [str(e)];
    [try_except] is [try: body except Exception as e: handler(e)]. *)
Inductive Result (A : Type) := Ok (a : A) | Raise (e : string).
Arguments Ok {A} a.
Arguments Raise {A} e.

Definition try_except {A} (body : Result A) (handler : string -> A) : Result A :=
  match body with
  | Ok a => Ok a
  | Raise e => Ok (handler e)
  end.

(** ** [Node.gossip_message]: which relay tasks are created *)

Record RelayTask := mkRelay {
  rt_message : string;
  rt_sender : string;
  rt_peer_ip : string;
  rt_peer_weight : Q;
  rt_round : Z
}.

(** [for peer_ip, peer_weight in self.susceptible_nodes:
       if peer_ip != sender_id: tasks.append(create_task(...))] *)
Fixpoint schedule_relays (msg sender : string) (round : Z)
    (nbrs : list (string * Q)) : list RelayTask :=
  match nbrs with
  | [] => []
  | (peer_ip, peer_weight) :: rest =>
      if negb (String.eqb peer_ip sender)
      then mkRelay msg sender peer_ip peer_weight round
             :: schedule_relays msg sender round rest
      else schedule_relays msg sender round rest
  end.

(** The task reads [self.susceptible_nodes] when it runs. *)
Definition gossip_message (self : Node) (j : GossipJob) : list RelayTask :=
  schedule_relays (gj_message j) (gj_sender j) (gj_round j) (susceptible_nodes self).

(** ** [Node.UpdateNeighbors] and the [ned.db] mirror

    The durable store is the content of table [NEIGHBORS] ([None]: no
    table).  [io_error] is the failure, if any, that SQLite itself reports
    (disk full, locked database, ...). *)
Definition Db := option (list (string * Q)).

(** [conn.executemany('INSERT INTO NEIGHBORS VALUES (?, ?)', rows)] into a
    table whose [pod_ip] is the PRIMARY KEY. *)
Fixpoint insert_rows (table rows : list (string * Q)) : Result (list (string * Q)) :=
  match rows with
  | [] => Ok table
  | (ip, w) :: rest =>
      if existsb (fun r => String.eqb (fst r) ip) table
      then Raise "UNIQUE constraint failed: NEIGHBORS.pod_ip"
      else insert_rows (table ++ [(ip, w)]) rest
  end.

(** [with sqlite3.connect('ned.db') as conn: BEGIN; DROP; CREATE; INSERT...;
    commit]: on an exception the context manager rolls back, so the store
    is only replaced when every statement succeeds. *)
Definition db_replace (io_error : option string) (rows : list (string * Q))
    : Result (list (string * Q)) :=
  match io_error with
  | Some e => Raise e
  | None => insert_rows [] rows
  end.

Definition set_nodes (n : Node) (nbrs : list (string * Q)) : Node :=
  mkNode (hostname n) (host n) nbrs (received_message_ids n) (semaphore n) (tasks n).

Definition UpdateNeighbors (self : Node) (neighbors : list (string * Q)) (db : Db)
    (io_error : option string) : Node * Db * Acknowledgment :=
  (* self.susceptible_nodes = [...]; self.received_message_ids.clear() *)
  let self1 := set_received (set_nodes self neighbors) ∅ in
  match db_replace io_error (susceptible_nodes self1) with
  | Ok table =>
      (self1, Some table,
       mkAck "Neighbors list and message cache have been updated.")
  | Raise e =>
      (* except Exception as e: the assignments above are not undone *)
      (self1, db, mkAck (String.append "Error: " e))
  end.

Definition update_ok (a : Acknowledgment) : bool :=
  String.eqb (details a) "Neighbors list and message cache have been updated.".

(** ** [Node._send_gossip_to_peer] with an explicit clock (nanoseconds)

    [clock0] is [time.time_ns()] when the task starts, [acquire_wait] the
    time spent blocked on [async with self.semaphore], [call_duration] the
    time the outbound [stub.SendMessage] takes, and [outcome] its result. *)
Inductive CallOutcome := CallOk | CallError (e : string).

Inductive TaskAction :=
  | AcquireSlot
  | SleepMs (ms : Z)
  | Call (peer : string) (req : GossipMessage)
  | LogFailure (peer : string) (err : string)
  | ReleaseSlot.

(** Python's [int(x)] on a float: truncation toward zero. *)
Definition py_int (q : Q) : Z :=
  if Qle_bool 0 q then Qfloor q else - Qfloor (- q).

Definition _send_gossip_to_peer (self : Node) (t : RelayTask)
    (clock0 acquire_wait call_duration : Z) (outcome : CallOutcome)
    : list (Z * TaskAction) * Result unit :=
  let send_timestamp := clock0 in
  let t_acq := clock0 + acquire_wait in
  let ms := py_int (rt_peer_weight t) in
  (* asyncio.sleep of a non-positive delay returns at once *)
  let t_call := t_acq + Z.max 0 ms * 1000000 in
  let req := mkGossipMessage (rt_message t) (host self) send_timestamp
               (rt_peer_weight t) (rt_round t) in
  let t_done := t_call + call_duration in
  let body : Result unit :=
    match outcome with CallOk => Ok tt | CallError e => Raise e end in
  let failure := match outcome with
                 | CallOk => []
                 | CallError e => [(t_done, LogFailure (rt_peer_ip t) e)]
                 end in
  ([(t_acq, AcquireSlot); (t_acq, SleepMs ms); (t_call, Call (rt_peer_ip t) req)]
     ++ failure ++ [(t_done, ReleaseSlot)],
   try_except body (fun _ => tt)).

(** ** Running one fan-out: [gossip_message] with its relay tasks

    Each relay task runs in its own environment: start time, time blocked
    on the semaphore, duration and outcome of its outbound call. *)
Record TaskEnv := mkEnv {
  te_clock0 : Z;
  te_acquire_wait : Z;
  te_call_duration : Z;
  te_outcome : CallOutcome
}.

Definition run_relay (self : Node) (env : RelayTask -> TaskEnv) (t : RelayTask)
    : list (Z * TaskAction) * Result unit :=
  let e := env t in
  _send_gossip_to_peer self t (te_clock0 e) (te_acquire_wait e)
    (te_call_duration e) (te_outcome e).

(** [asyncio.gather(...tasks..., return_exceptions=True)]: a raised exception
    becomes an element of the result list instead of propagating. *)
Definition gather_return_exceptions (rs : list (Result unit))
    : Result (list (Result unit)) :=
  Ok rs.

(** [gossip_message]: the traces of its relay tasks and its own result
    ([if tasks: await asyncio.gather(...)]). *)
Definition run_gossip_job (self : Node) (j : GossipJob) (env : RelayTask -> TaskEnv)
    : list (list (Z * TaskAction)) * Result (list (Result unit)) :=
  let runs := map (run_relay self env) (gossip_message self j) in
  (map fst runs,
   match runs with
   | [] => Ok []
   | _ => gather_return_exceptions (map snd runs)
   end).

(** ** The shared send semaphore as a transition system

    Every relay task of the node, whatever fan-out created it, goes
    through [async with self.semaphore:] around its sleep and its outbound
    call.  [Waiting]: created, not yet holding a slot; [Sleeping]: holding a
    slot, in [asyncio.sleep]; [Calling]: holding a slot, in the outbound
    [stub.SendMessage]; [Finished]: left the [async with] block (normally
    or through an exception), slot released. *)
Inductive Phase := Waiting | Sleeping | Calling | Finished.

Record Engine := mkEngine {
  sem_value : nat;
  relays : list Phase
}.

Definition engine_init : Engine := mkEngine MAX_CONCURRENT_SENDS [].

Inductive engine_step : Engine -> Engine -> Prop :=
  | es_spawn v ps :
      engine_step (mkEngine v ps) (mkEngine v (ps ++ [Waiting]))
  | es_acquire v l1 l2 :
      engine_step (mkEngine (S v) (l1 ++ Waiting :: l2))
                  (mkEngine v (l1 ++ Sleeping :: l2))
  | es_wake v l1 l2 :
      engine_step (mkEngine v (l1 ++ Sleeping :: l2))
                  (mkEngine v (l1 ++ Calling :: l2))
  | es_leave_sleep v l1 l2 :
      engine_step (mkEngine v (l1 ++ Sleeping :: l2))
                  (mkEngine (S v) (l1 ++ Finished :: l2))
  | es_leave_call v l1 l2 :
      engine_step (mkEngine v (l1 ++ Calling :: l2))
                  (mkEngine (S v) (l1 ++ Finished :: l2)).

Definition holds_slot (p : Phase) : bool :=
  match p with Sleeping | Calling => true | _ => false end.

Definition is_calling (p : Phase) : bool :=
  match p with Calling => true | _ => false end.

Fixpoint count_phase (f : Phase -> bool) (ps : list Phase) : nat :=
  match ps with
  | [] => 0
  | p :: rest => (if f p then 1 else 0) + count_phase f rest
  end.

(** Number of outbound relay calls in flight. *)
Definition in_flight (e : Engine) : nat := count_phase is_calling (relays e).

(** ** A sequence of deliveries to one node

    For each call: the logged event kind and the number of fan-outs it
    started. *)
Fixpoint send_all (n : Node) (reqs : list (GossipMessage * Z))
    : Node * list (EventType * nat) :=
  match reqs with
  | [] => (n, [])
  | (r, now) :: rest =>
      let '(n1, ev, _) := SendMessage n r now in
      let '(n2, outs) := send_all n1 rest in
      (n2, (ev_event_type ev, (length (tasks n1) - length (tasks n))%nat) :: outs)
  end.

(** ** Concrete runs *)

Definition node_x : Node :=
  init_node "x" "10.0.0.1" [("10.0.0.2", 10%Q); ("10.0.0.3", 20%Q)].

Definition msg_from (m sender : string) (sent round : Z) : GossipMessage :=
  mkGossipMessage m sender sent 10%Q round.

(** Scenario A: a self-addressed call initiates and fans out to both peers
    at round 0. *)
Example scenario_A :
  let '(n1, ev, _) := SendMessage node_x (msg_from "m1" "10.0.0.1" 0 0) 5 in
  ev_event_type ev = Initiate /\
  map (fun t => (rt_peer_ip t, rt_round t)) (concat (map (gossip_message n1) (tasks n1)))
    = [("10.0.0.2", 0); ("10.0.0.3", 0)].
Proof. vm_compute. split; reflexivity. Qed.

(** Scenario B then C: a fresh id is received and relayed at round 1, except
    to its sender; a later delivery of it is a duplicate. *)
Example scenario_B_C :
  let '(n1, ev1, _) := SendMessage node_x (msg_from "m1" "10.0.0.2" 0 0) 3000000 in
  let '(n2, ev2, ack2) := SendMessage n1 (msg_from "m1" "10.0.0.3" 0 1) 4000000 in
  ev_event_type ev1 = Received /\ option_map Qred (ev_propagation_time ev1) = Some 3%Q /\
  map (fun t => (rt_peer_ip t, rt_round t)) (concat (map (gossip_message n1) (tasks n1)))
    = [("10.0.0.3", 1)] /\
  ev_event_type ev2 = Duplicate /\ n2 = n1 /\
  details ack2 = "Duplicate message ignored by (10.0.0.1)".
Proof. vm_compute. repeat split; reflexivity. Qed.

(** ** Auxiliary lemmas *)

Lemma propagation_ms_scaled (received sent : Z) :
  (propagation_ms received sent * inject_Z 1000000 == inject_Z (received - sent))%Q.
Proof. unfold propagation_ms. field. Qed.

Lemma SendMessage_host (n : Node) (r : GossipMessage) (now : Z) :
  host (fst (fst (SendMessage n r now))) = host n.
Proof.
  unfold SendMessage. destruct (String.eqb _ _); [reflexivity|].
  case_bool_decide; reflexivity.
Qed.

Lemma SendMessage_marks (n : Node) (r : GossipMessage) (now : Z) :
  received_message_ids (fst (fst (SendMessage n r now)))
    = {[ message r ]} ∪ received_message_ids n.
Proof.
  unfold SendMessage. destruct (String.eqb _ _); [reflexivity|].
  case_bool_decide as Hin; [|reflexivity]. cbn. set_solver.
Qed.

Lemma UpdateNeighbors_memory (n : Node) nbrs (db : Db) io :
  let '(n1, _, _) := UpdateNeighbors n nbrs db io in
  n1 = set_received (set_nodes n nbrs) ∅.
Proof. unfold UpdateNeighbors. destruct (db_replace _ _); reflexivity. Qed.

Lemma SendMessage_case_self (n : Node) (r : GossipMessage) (now : Z)
    (Hself : sender_id r = host n) :
  let '(n', ev, _) := SendMessage n r now in
  received_message_ids n' = {[ message r ]} ∪ received_message_ids n /\
  ev_event_type ev = Initiate /\
  tasks n' = tasks n ++ [mkJob (message r) (sender_id r) 0].
Proof. unfold SendMessage. rewrite Hself, String.eqb_refl. cbn. auto. Qed.

Lemma SendMessage_case_dup (n : Node) (r : GossipMessage) (now : Z)
    (Hother : sender_id r <> host n) (Hseen : message r ∈ received_message_ids n) :
  let '(n', ev, _) := SendMessage n r now in
  n' = n /\ ev_event_type ev = Duplicate.
Proof.
  unfold SendMessage. rewrite (proj2 (String.eqb_neq _ _) Hother).
  rewrite bool_decide_eq_true_2 by exact Hseen. auto.
Qed.

Lemma SendMessage_case_new (n : Node) (r : GossipMessage) (now : Z)
    (Hother : sender_id r <> host n) (Hfresh : message r ∉ received_message_ids n) :
  let '(n', ev, _) := SendMessage n r now in
  received_message_ids n' = {[ message r ]} ∪ received_message_ids n /\
  ev_event_type ev = Received /\
  tasks n' = tasks n ++ [mkJob (message r) (sender_id r) (round_count r + 1)].
Proof.
  unfold SendMessage. rewrite (proj2 (String.eqb_neq _ _) Hother).
  rewrite bool_decide_eq_false_2 by exact Hfresh. cbn. auto.
Qed.

(** ** C1: the three cases of [SendMessage] *)

(** C1. A self-addressed call marks the id seen, logs [initiate] and starts
    a fan-out at round 0; otherwise a seen id logs [duplicate], changes
    nothing and is acknowledged as a duplicate; otherwise the id is marked
    seen, [propagation_time] is the receive time minus the send time (in
    milliseconds), [received] is logged with the incoming round, a fan-out
    starts at the incoming round plus one and the Ack reports acceptance. *)
Theorem SendMessage_spec (n : Node) (r : GossipMessage) (now : Z) :
  let '(n', ev, ack) := SendMessage n r now in
  (sender_id r = host n ->
     received_message_ids n' = {[ message r ]} ∪ received_message_ids n /\
     ev_event_type ev = Initiate /\ ev_round_count ev = 0 /\
     tasks n' = tasks n ++ [mkJob (message r) (sender_id r) 0] /\
     details ack = String.append "Done propagate! "
       (String.append (host n) (String.append " received: " (quoted (message r))))) /\
  (sender_id r <> host n -> message r ∈ received_message_ids n ->
     n' = n /\ ev_event_type ev = Duplicate /\ ev_round_count ev = round_count r /\
     details ack = String.append "Duplicate message ignored by ("
                     (String.append (host n) ")")) /\
  (sender_id r <> host n -> message r ∉ received_message_ids n ->
     received_message_ids n' = {[ message r ]} ∪ received_message_ids n /\
     ev_event_type ev = Received /\
     (exists pt, ev_propagation_time ev = Some pt /\
        (pt * inject_Z 1000000 == inject_Z (now - timestamp r))%Q) /\
     ev_round_count ev = round_count r /\
     tasks n' = tasks n ++ [mkJob (message r) (sender_id r) (round_count r + 1)] /\
     details ack = String.append (host n)
                     (String.append " received: " (quoted (message r)))).
Proof.
  unfold SendMessage.
  destruct (String.eqb_spec (sender_id r) (host n)) as [Heq|Hne].
  - split; [|split]; intros; try contradiction.
    cbn. repeat split; reflexivity.
  - case_bool_decide as Hin.
    + split; [intros; contradiction|]. split; [|intros; contradiction].
      intros _ _. repeat split; reflexivity.
    + split; [intros; contradiction|]. split; [intros; contradiction|].
      intros _ _. cbn. repeat split; try reflexivity.
      eexists. split; [reflexivity|]. apply propagation_ms_scaled.
Qed.

(** ** C10: the duplicate branch is a pure no-op on the node *)

(** C10. When the sender is not the node itself and the id is already seen,
    [SendMessage] returns the node state unchanged (seen set, neighbor list,
    semaphore and spawned tasks), logs [duplicate] and acknowledges the
    duplicate. *)
Theorem SendMessage_duplicate_frame (n : Node) (r : GossipMessage) (now : Z)
    (Hother : sender_id r <> host n) (Hseen : message r ∈ received_message_ids n) :
  SendMessage n r now =
    (n, _log_event n (message r) (sender_id r) now None (Some (latency_ms r))
          Duplicate (round_count r),
     mkAck (String.append "Duplicate message ignored by (" (String.append (host n) ")"))).
Proof.
  unfold SendMessage.
  destruct (String.eqb_spec (sender_id r) (host n)) as [Heq|_]; [contradiction|].
  rewrite bool_decide_eq_true_2 by exact Hseen. reflexivity.
Qed.

Lemma SendMessage_duplicate_frame_witness :
  sender_id (msg_from "m1" "10.0.0.2" 0 1) <> host (set_received node_x {[ "m1" ]}) /\
  SendMessage (set_received node_x {[ "m1" ]}) (msg_from "m1" "10.0.0.2" 0 1) 7 =
    (set_received node_x {[ "m1" ]},
     _log_event (set_received node_x {[ "m1" ]}) "m1" "10.0.0.2" 7 None (Some 10%Q)
       Duplicate 1,
     mkAck "Duplicate message ignored by (10.0.0.1)").
Proof.
  split; [discriminate|].
  apply (SendMessage_duplicate_frame (set_received node_x {[ "m1" ]})
           (msg_from "m1" "10.0.0.2" 0 1) 7).
  - discriminate.
  - cbn. set_solver.
Defined.

(** ** The primary-key check of the durable store *)

Lemma existsb_fst_true (table : list (string * Q)) (ip : string) :
  existsb (fun r => String.eqb (fst r) ip) table = true <-> ip ∈ map fst table.
Proof.
  rewrite existsb_exists, list_elem_of_In, in_map_iff. split.
  - intros [[a w] [Hin Heq]]. apply String.eqb_eq in Heq. cbn in Heq. subst.
    exists (ip, w). auto.
  - intros [[a w] [Heq Hin]]. cbn in Heq. subst. exists (ip, w).
    split; [exact Hin|]. apply String.eqb_refl.
Qed.

Lemma insert_rows_spec (rows table : list (string * Q)) :
  NoDup (map fst table) ->
  insert_rows table rows =
    if bool_decide (NoDup (map fst (table ++ rows))) then Ok (table ++ rows)
    else Raise "UNIQUE constraint failed: NEIGHBORS.pod_ip".
Proof.
  revert table. induction rows as [|[ip w] rest IH]; intros table Hnd; cbn.
  - rewrite app_nil_r. rewrite bool_decide_eq_true_2 by exact Hnd. reflexivity.
  - destruct (existsb _ table) eqn:Hex.
    + apply existsb_fst_true in Hex.
      rewrite bool_decide_eq_false_2; [reflexivity|].
      rewrite map_app, NoDup_app. intros [_ [Hdisj _]].
      apply (Hdisj ip Hex). cbn. left.
    + assert (Hnot : ip ∉ map fst table).
      { intros Hin. apply existsb_fst_true in Hin. congruence. }
      rewrite IH.
      * replace ((table ++ [(ip, w)]) ++ rest) with (table ++ (ip, w) :: rest)
          by (rewrite <- app_assoc; reflexivity).
        reflexivity.
      * rewrite map_app. apply NoDup_app. split; [exact Hnd|]. split.
        -- intros x Hx Hx'. cbn in Hx'. apply list_elem_of_singleton in Hx'.
           subst. contradiction.
        -- cbn. constructor; [set_solver|constructor].
Qed.

Lemma db_replace_no_io (rows : list (string * Q)) :
  db_replace None rows =
    if bool_decide (NoDup (map fst rows)) then Ok rows
    else Raise "UNIQUE constraint failed: NEIGHBORS.pod_ip".
Proof. unfold db_replace. rewrite insert_rows_spec by constructor. reflexivity. Qed.

(** ** C6: a successful update starts a new epoch *)

(** C6. After a successful [UpdateNeighbors], an id that was already seen
    is unseen again: the next delivery of it from another peer takes the
    [received] path, marks it seen and starts a fan-out. *)
Theorem epoch_reset (n : Node) (nbrs : list (string * Q)) (db : Db) (io : option string)
    (n1 : Node) (db1 : Db) (ack : Acknowledgment) (r : GossipMessage) (now : Z)
    (Hupd : UpdateNeighbors n nbrs db io = (n1, db1, ack))
    (Hok : update_ok ack = true)
    (Hseen : message r ∈ received_message_ids n)
    (Hother : sender_id r <> host n) :
  let '(n2, ev, _) := SendMessage n1 r now in
  ev_event_type ev = Received /\
  received_message_ids n2 = {[ message r ]} /\
  tasks n2 = tasks n1 ++ [mkJob (message r) (sender_id r) (round_count r + 1)].
Proof.
  pose proof (UpdateNeighbors_memory n nbrs db io) as Hmem.
  rewrite Hupd in Hmem. subst n1.
  unfold SendMessage. cbn.
  destruct (String.eqb_spec (sender_id r) (host n)) as [Heq|_]; [contradiction|].
  rewrite bool_decide_eq_false_2 by set_solver.
  cbn. repeat split. set_solver.
Qed.

Definition ack_updated : Acknowledgment :=
  mkAck "Neighbors list and message cache have been updated.".

Lemma epoch_reset_witness :
  update_ok ack_updated = true /\
  let '(n2, ev, _) :=
    SendMessage (set_received (set_nodes (set_received node_x {[ "m1" ]})
                                 [("10.0.0.4", 5%Q)]) ∅)
      (msg_from "m1" "10.0.0.2" 0 1) 9 in
  ev_event_type ev = Received /\
  received_message_ids n2 = {[ "m1" ]} /\
  tasks n2 = [mkJob "m1" "10.0.0.2" 2].
Proof.
  split; [reflexivity|].
  apply (epoch_reset (set_received node_x {[ "m1" ]}) [("10.0.0.4", 5%Q)] None None
           (set_received (set_nodes (set_received node_x {[ "m1" ]})
                            [("10.0.0.4", 5%Q)]) ∅)
           (Some [("10.0.0.4", 5%Q)]) ack_updated (msg_from "m1" "10.0.0.2" 0 1) 9).
  - reflexivity.
  - reflexivity.
  - cbn. set_solver.
  - discriminate.
Defined.

(** ** C3: a failing durable-store write *)

(** C3 (as the code behaves). When the SQLite write fails with [e], the
    Ack carries ["Error: " ++ e] and the store keeps its old content
    (rolled back), but the in-memory neighbor list has already been
    replaced by the new one and the seen-id set cleared: memory and disk
    diverge. *)
Theorem UpdateNeighbors_store_failure (n : Node) (nbrs : list (string * Q)) (db : Db)
    (io : option string) (e : string) (Hfail : db_replace io nbrs = Raise e) :
  UpdateNeighbors n nbrs db io =
    (set_received (set_nodes n nbrs) ∅, db, mkAck (String.append "Error: " e)).
Proof. unfold UpdateNeighbors. cbn. rewrite Hfail. reflexivity. Qed.

Lemma UpdateNeighbors_store_failure_witness :
  db_replace (Some "disk I/O error") [("10.0.0.4", 5%Q)] = Raise "disk I/O error" /\
  UpdateNeighbors node_x [("10.0.0.4", 5%Q)] None (Some "disk I/O error") =
    (set_received (set_nodes node_x [("10.0.0.4", 5%Q)]) ∅, None,
     mkAck "Error: disk I/O error").
Proof.
  split; [reflexivity|].
  apply (UpdateNeighbors_store_failure node_x [("10.0.0.4", 5%Q)] None
           (Some "disk I/O error") "disk I/O error").
  reflexivity.
Defined.

(** C3, refuted: a node whose table is [10.0.0.2; 10.0.0.3] and which has
    seen ["m1"] gets [UpdateNeighbors([10.0.0.4])] while the disk write
    fails; the error Ack is returned, yet the in-memory table is the new
    one and ["m1"] is no longer seen. *)
Lemma UpdateNeighbors_store_failure_not_atomic :
  let n0 := set_received node_x {[ "m1" ]} in
  let '(n1, db1, ack) :=
    UpdateNeighbors n0 [("10.0.0.4", 5%Q)]
      (Some [("10.0.0.2", 10%Q); ("10.0.0.3", 20%Q)]) (Some "disk I/O error") in
  details ack = "Error: disk I/O error" /\
  db1 = Some [("10.0.0.2", 10%Q); ("10.0.0.3", 20%Q)] /\
  susceptible_nodes n1 <> susceptible_nodes n0 /\
  "m1" ∈ received_message_ids n0 /\ "m1" ∉ received_message_ids n1.
Proof.
  cbn. split; [reflexivity|]. split; [reflexivity|]. split; [discriminate|].
  set_solver.
Qed.

(** ** C5: no validation of the new edge list *)

(** C5 (as the code behaves). [UpdateNeighbors] validates nothing: whatever
    the list, it becomes the in-memory table and the seen-id set is
    cleared.  With a working disk, the store is replaced and the success
    Ack returned exactly when the addresses are pairwise distinct;
    otherwise the PRIMARY KEY insert fails, the store is rolled back and an
    error Ack is returned while the duplicated list stays installed.
    Weights are never inspected. *)
Theorem UpdateNeighbors_no_validation (n : Node) (nbrs : list (string * Q)) (db : Db) :
  let '(n1, db1, ack) := UpdateNeighbors n nbrs db None in
  susceptible_nodes n1 = nbrs /\ received_message_ids n1 = ∅ /\
  (NoDup (map fst nbrs) -> db1 = Some nbrs /\ update_ok ack = true) /\
  (~ NoDup (map fst nbrs) ->
     db1 = db /\ details ack = "Error: UNIQUE constraint failed: NEIGHBORS.pod_ip").
Proof.
  unfold UpdateNeighbors. rewrite db_replace_no_io. cbn.
  case_bool_decide as Hnd; (split; [reflexivity|]); (split; [reflexivity|]).
  - split; [intros _; split; reflexivity | intros Hn; contradiction].
  - split; [intros Hn; contradiction | intros _; split; reflexivity].
Qed.

(** C5, refuted: a list with the address 10.0.0.3 twice is answered with
    an error Ack but is installed anyway; a negative weight is accepted
    with the success Ack. *)
Lemma UpdateNeighbors_malformed_installed :
  (let '(n1, _, ack) :=
     UpdateNeighbors node_x [("10.0.0.3", 5%Q); ("10.0.0.3", 7%Q)] None None in
   details ack = "Error: UNIQUE constraint failed: NEIGHBORS.pod_ip" /\
   susceptible_nodes n1 = [("10.0.0.3", 5%Q); ("10.0.0.3", 7%Q)] /\
   susceptible_nodes n1 <> susceptible_nodes node_x) /\
  (let '(n2, _, ack2) := UpdateNeighbors node_x [("10.0.0.3", (-5)%Q)] None None in
   update_ok ack2 = true /\ susceptible_nodes n2 = [("10.0.0.3", (-5)%Q)]).
Proof.
  vm_compute. split; [split; [reflexivity|split; [reflexivity|discriminate]]|].
  split; reflexivity.
Qed.

(** ** C2: deduplication within an epoch *)

Lemma SendMessage_self_case (n : Node) (r : GossipMessage) (now : Z)
    (Hself : sender_id r = host n) :
  let '(n1, ev, _) := SendMessage n r now in
  ev_event_type ev = Initiate /\ length (tasks n1) = S (length (tasks n)).
Proof.
  unfold SendMessage. rewrite Hself, String.eqb_refl. cbn.
  rewrite length_app. cbn. split; [reflexivity|lia].
Qed.

(** Once the id is seen, every later delivery of it logs [initiate] with a
    new fan-out when self-addressed, and [duplicate] without fan-out
    otherwise. *)
Lemma send_all_after_seen (m : string) (rest : list (GossipMessage * Z)) :
  forall n : Node,
  m ∈ received_message_ids n ->
  Forall (fun p => message (fst p) = m) rest ->
  Forall2 (fun p o => if String.eqb (sender_id (fst p)) (host n)
                      then o = (Initiate, 1%nat) else o = (Duplicate, 0%nat))
    rest (snd (send_all n rest)).
Proof.
  induction rest as [|[r now] rest IH]; intros n Hseen Hms; cbn; [constructor|].
  apply Forall_cons_1 in Hms as [Hm Hms']. cbn in Hm.
  pose proof (SendMessage_host n r now) as Hhost.
  pose proof (SendMessage_marks n r now) as Hmarks.
  destruct (String.eqb_spec (sender_id r) (host n)) as [Heq|Hne].
  - pose proof (SendMessage_self_case n r now Heq) as Hc.
    destruct (SendMessage n r now) as [[n1 ev] a]. cbn in Hhost, Hmarks.
    destruct Hc as [Hev Hlen].
    destruct (send_all n1 rest) as [n2 outs] eqn:Hrec. cbn.
    constructor.
    + cbn. rewrite Heq, String.eqb_refl, Hev, Hlen. f_equal. lia.
    + rewrite <- Hhost. change outs with (snd (n2, outs)). rewrite <- Hrec.
      apply IH; [rewrite Hmarks; set_solver | exact Hms'].
  - pose proof (SendMessage_case_dup n r now Hne ltac:(rewrite Hm; exact Hseen)) as Hc.
    destruct (SendMessage n r now) as [[n1 ev] a]. destruct Hc as [-> Hev].
    destruct (send_all n rest) as [n2 outs] eqn:Hrec. cbn.
    constructor.
    + cbn. rewrite (proj2 (String.eqb_neq _ _) Hne), Hev, Nat.sub_diag. reflexivity.
    + change outs with (snd (n2, outs)). rewrite <- Hrec.
      apply IH; [exact Hseen | exact Hms'].
Qed.

(** The same sequence of deliveries, recording for each call the logged
    event kind and the fan-out jobs it started. *)
Fixpoint deliver_all (n : Node) (reqs : list (GossipMessage * Z))
    : Node * list (EventType * list GossipJob) :=
  match reqs with
  | [] => (n, [])
  | (r, now) :: rest =>
      let '(n1, ev, _) := SendMessage n r now in
      let '(n2, outs) := deliver_all n1 rest in
      (n2, (ev_event_type ev, drop (length (tasks n)) (tasks n1)) :: outs)
  end.

Lemma deliver_all_after_seen (m : string) (rest : list (GossipMessage * Z)) :
  forall n : Node,
  m ∈ received_message_ids n ->
  Forall (fun p => message (fst p) = m) rest ->
  Forall2 (fun p o => if String.eqb (sender_id (fst p)) (host n)
                      then o = (Initiate, [mkJob m (sender_id (fst p)) 0])
                      else o = (Duplicate, []))
    rest (snd (deliver_all n rest)).
Proof.
  induction rest as [|[r now] rest IH]; intros n Hseen Hms; cbn; [constructor|].
  apply Forall_cons_1 in Hms as [Hm Hms']. cbn in Hm.
  pose proof (SendMessage_host n r now) as Hhost.
  pose proof (SendMessage_marks n r now) as Hmarks.
  destruct (String.eqb_spec (sender_id r) (host n)) as [Heq|Hne].
  - pose proof (SendMessage_case_self n r now Heq) as Hc.
    destruct (SendMessage n r now) as [[n1 ev] a]. cbn in Hhost, Hmarks.
    destruct Hc as (_ & Hev & Htasks).
    destruct (deliver_all n1 rest) as [n2 outs] eqn:Hrec. cbn.
    constructor.
    + cbn. rewrite Heq, String.eqb_refl, Hev, Htasks, drop_app_length, Hm, Heq.
      reflexivity.
    + rewrite <- Hhost. change outs with (snd (n2, outs)). rewrite <- Hrec.
      apply IH; [rewrite Hmarks; set_solver | exact Hms'].
  - pose proof (SendMessage_case_dup n r now Hne ltac:(rewrite Hm; exact Hseen)) as Hc.
    destruct (SendMessage n r now) as [[n1 ev] a]. destruct Hc as [-> Hev].
    destruct (deliver_all n rest) as [n2 outs] eqn:Hrec. cbn.
    constructor.
    + cbn. rewrite (proj2 (String.eqb_neq _ _) Hne), Hev, drop_all. reflexivity.
    + change outs with (snd (n2, outs)). rewrite <- Hrec.
      apply IH; [exact Hseen | exact Hms'].
Qed.

(** C2 (as the code behaves). Within one epoch, take the deliveries of an
    id [m] the node has not seen yet.  The first one logs [initiate] and
    starts a fan-out at round 0 when it is self-addressed, and otherwise
    logs [received] and starts a fan-out at its round plus one.  Each later
    delivery from another sender logs [duplicate] and starts no fan-out;
    each later self-addressed delivery (the self-addressed branch is
    checked before the seen set) logs [initiate] and starts a new fan-out
    at round 0. *)
Theorem dedup_per_epoch (n : Node) (m : string) (r0 : GossipMessage) (t0 : Z)
    (rest : list (GossipMessage * Z))
    (Hfresh : m ∉ received_message_ids n)
    (Hm0 : message r0 = m)
    (Hms : Forall (fun p => message (fst p) = m) rest) :
  match snd (deliver_all n ((r0, t0) :: rest)) with
  | o0 :: outs =>
      o0 = (if String.eqb (sender_id r0) (host n)
            then (Initiate, [mkJob m (sender_id r0) 0])
            else (Received, [mkJob m (sender_id r0) (round_count r0 + 1)])) /\
      Forall2 (fun p o => if String.eqb (sender_id (fst p)) (host n)
                          then o = (Initiate, [mkJob m (sender_id (fst p)) 0])
                          else o = (Duplicate, []))
        rest outs
  | [] => False
  end.
Proof.
  cbn.
  pose proof (SendMessage_host n r0 t0) as Hhost.
  pose proof (SendMessage_marks n r0 t0) as Hmarks.
  destruct (String.eqb_spec (sender_id r0) (host n)) as [Heq|Hne].
  - pose proof (SendMessage_case_self n r0 t0 Heq) as Hc.
    destruct (SendMessage n r0 t0) as [[n1 ev] a]. cbn in Hhost, Hmarks.
    destruct Hc as (_ & Hev & Htasks).
    destruct (deliver_all n1 rest) as [n2 outs] eqn:Hrec. cbn.
    split.
    + rewrite Hev, Htasks, drop_app_length, Hm0. reflexivity.
    + change outs with (snd (n2, outs)). rewrite <- Hrec, <- Hhost.
      apply (deliver_all_after_seen m); [rewrite Hmarks; set_solver | exact Hms].
  - pose proof (SendMessage_case_new n r0 t0 Hne ltac:(rewrite Hm0; exact Hfresh)) as Hc.
    destruct (SendMessage n r0 t0) as [[n1 ev] a]. cbn in Hhost, Hmarks.
    destruct Hc as (_ & Hev & Htasks).
    destruct (deliver_all n1 rest) as [n2 outs] eqn:Hrec. cbn.
    split.
    + rewrite Hev, Htasks, drop_app_length, Hm0. reflexivity.
    + change outs with (snd (n2, outs)). rewrite <- Hrec, <- Hhost.
      apply (deliver_all_after_seen m); [rewrite Hmarks; set_solver | exact Hms].
Qed.

Lemma dedup_per_epoch_witness :
  ("m1" ∉ received_message_ids node_x) /\
  match snd (deliver_all node_x [(msg_from "m1" "10.0.0.2" 0 0, 1);
                                 (msg_from "m1" "10.0.0.3" 0 1, 2);
                                 (msg_from "m1" "10.0.0.1" 0 0, 3)]) with
  | o0 :: outs =>
      o0 = (if String.eqb (sender_id (msg_from "m1" "10.0.0.2" 0 0)) (host node_x)
            then (Initiate, [mkJob "m1" (sender_id (msg_from "m1" "10.0.0.2" 0 0)) 0])
            else (Received, [mkJob "m1" (sender_id (msg_from "m1" "10.0.0.2" 0 0))
                               (round_count (msg_from "m1" "10.0.0.2" 0 0) + 1)])) /\
      Forall2 (fun p o => if String.eqb (sender_id (fst p)) (host node_x)
                          then o = (Initiate, [mkJob "m1" (sender_id (fst p)) 0])
                          else o = (Duplicate, []))
        [(msg_from "m1" "10.0.0.3" 0 1, 2); (msg_from "m1" "10.0.0.1" 0 0, 3)] outs
  | [] => False
  end.
Proof.
  split; [cbn; set_solver|].
  apply (dedup_per_epoch node_x "m1" (msg_from "m1" "10.0.0.2" 0 0) 1
           [(msg_from "m1" "10.0.0.3" 0 1, 2); (msg_from "m1" "10.0.0.1" 0 0, 3)]).
  - cbn. set_solver.
  - reflexivity.
  - repeat constructor.
Defined.

(** The deduplication the claim states: the first delivery logs
    [initiate] or [received] with one fan-out, every later one logs
    [duplicate] with none. *)
Definition dedup_as_stated (outs : list (EventType * nat)) : Prop :=
  match outs with
  | o0 :: rest =>
      (fst o0 = Initiate \/ fst o0 = Received) /\ snd o0 = 1%nat /\
      Forall (fun o => o = (Duplicate, 0%nat)) rest
  | [] => True
  end.

(** C2, refuted: in a fresh epoch, ["m1"] first received from 10.0.0.2 and
    then delivered self-addressed is relayed twice; two self-addressed
    deliveries also initiate twice. *)
Lemma dedup_self_addressed_relays_again :
  snd (send_all node_x [(msg_from "m1" "10.0.0.2" 0 0, 1);
                        (msg_from "m1" "10.0.0.1" 0 0, 2)])
    = [(Received, 1%nat); (Initiate, 1%nat)] /\
  snd (send_all node_x [(msg_from "m1" "10.0.0.1" 0 0, 1);
                        (msg_from "m1" "10.0.0.1" 0 0, 2)])
    = [(Initiate, 1%nat); (Initiate, 1%nat)] /\
  ~ dedup_as_stated (snd (send_all node_x [(msg_from "m1" "10.0.0.2" 0 0, 1);
                                           (msg_from "m1" "10.0.0.1" 0 0, 2)])).
Proof.
  vm_compute. split; [reflexivity|]. split; [reflexivity|].
  intros (_ & _ & Hrest). inversion Hrest as [|? ? Hx]. discriminate.
Qed.

(** ** C4: fan-out targets *)

Lemma schedule_relays_ips (msg sender : string) (round : Z) (nbrs : list (string * Q)) :
  map rt_peer_ip (schedule_relays msg sender round nbrs)
    = List.filter (fun ip => negb (String.eqb ip sender)) (map fst nbrs).
Proof.
  induction nbrs as [|[ip w] rest IH]; cbn; [reflexivity|].
  destruct (negb (String.eqb ip sender)); cbn; rewrite IH; reflexivity.
Qed.

Lemma schedule_relays_entries (msg sender : string) (round : Z) (nbrs : list (string * Q)) :
  map (fun t => (rt_peer_ip t, rt_peer_weight t)) (schedule_relays msg sender round nbrs)
    = List.filter (fun p => negb (String.eqb (fst p) sender)) nbrs.
Proof.
  induction nbrs as [|[ip w] rest IH]; cbn; [reflexivity|].
  destruct (negb (String.eqb ip sender)); cbn; rewrite IH; reflexivity.
Qed.

Lemma schedule_relays_fields (msg sender : string) (round : Z) (nbrs : list (string * Q)) :
  Forall (fun t => rt_message t = msg /\ rt_sender t = sender /\ rt_round t = round /\
                   (rt_peer_ip t, rt_peer_weight t) ∈ nbrs)
    (schedule_relays msg sender round nbrs).
Proof.
  induction nbrs as [|[ip w] rest IH]; cbn; [constructor|].
  assert (Hw : Forall (fun t => rt_message t = msg /\ rt_sender t = sender /\
                 rt_round t = round /\ (rt_peer_ip t, rt_peer_weight t) ∈ (ip, w) :: rest)
                 (schedule_relays msg sender round rest)).
  { eapply Forall_impl; [exact IH|]. intros t (? & ? & ? & Hin).
    repeat split; auto. set_solver. }
  destruct (negb (String.eqb ip sender)); [|exact Hw].
  constructor; [|exact Hw]. cbn. repeat split. set_solver.
Qed.

(** C4 (as the code behaves). A fan-out for a delivery whose sender is [p]
    creates one relay task per entry of the neighbor list whose address is
    not [p], in list order, each carrying the message and the round of the
    fan-out and the entry's weight.  For a self-originated message [p] is
    the node's own address: the fan-out covers all of the neighbor list
    when the list does not name the node itself. *)
Theorem gossip_message_targets (n : Node) (j : GossipJob) :
  map (fun t => (rt_peer_ip t, rt_peer_weight t)) (gossip_message n j)
    = List.filter (fun p => negb (String.eqb (fst p) (gj_sender j)))
        (susceptible_nodes n) /\
  map rt_peer_ip (gossip_message n j)
    = List.filter (fun ip => negb (String.eqb ip (gj_sender j)))
        (map fst (susceptible_nodes n)) /\
  Forall (fun t => rt_message t = gj_message j /\ rt_round t = gj_round j /\
                   (rt_peer_ip t, rt_peer_weight t) ∈ susceptible_nodes n)
    (gossip_message n j) /\
  (gj_sender j = host n -> host n ∉ map fst (susceptible_nodes n) ->
   map rt_peer_ip (gossip_message n j) = map fst (susceptible_nodes n)).
Proof.
  unfold gossip_message. split; [apply schedule_relays_entries|].
  split; [apply schedule_relays_ips|]. split.
  - eapply Forall_impl; [apply schedule_relays_fields|].
    intros t (? & _ & ? & ?). auto.
  - intros Hself Hnot. rewrite schedule_relays_ips, Hself.
    induction (susceptible_nodes n) as [|[ip w] rest IH]; cbn; [reflexivity|].
    cbn in Hnot.
    destruct (String.eqb_spec ip (host n)) as [->|Hne]; [set_solver|].
    cbn. f_equal. apply IH. set_solver.
Qed.

(** C4, refuted: a node whose neighbor list names its own address does
    not relay a self-originated message to all of its list. *)
Lemma self_originated_skips_own_address :
  let n := init_node "x" "10.0.0.1" [("10.0.0.1", 1%Q); ("10.0.0.2", 2%Q)] in
  map rt_peer_ip (gossip_message n (mkJob "m1" "10.0.0.1" 0)) = ["10.0.0.2"] /\
  map rt_peer_ip (gossip_message n (mkJob "m1" "10.0.0.1" 0))
    <> map fst (susceptible_nodes n).
Proof. vm_compute. split; [reflexivity | discriminate]. Qed.

(** ** C7: the semaphore bounds the outbound calls in flight *)

Lemma count_phase_app (f : Phase -> bool) (l1 l2 : list Phase) :
  count_phase f (l1 ++ l2) = (count_phase f l1 + count_phase f l2)%nat.
Proof. induction l1 as [|p l1 IH]; cbn; [reflexivity|]. rewrite IH. lia. Qed.

Lemma count_calling_le_holding (ps : list Phase) :
  (count_phase is_calling ps <= count_phase holds_slot ps)%nat.
Proof. induction ps as [|[] ps IH]; cbn; lia. Qed.

(** The semaphore value plus the slots held is the capacity. *)
Definition slots_balanced (e : Engine) : Prop :=
  (sem_value e + count_phase holds_slot (relays e))%nat = MAX_CONCURRENT_SENDS.

Lemma engine_step_balanced (e e' : Engine) :
  engine_step e e' -> slots_balanced e -> slots_balanced e'.
Proof.
  unfold slots_balanced.
  intros Hs; destruct Hs; cbn; rewrite ?count_phase_app; cbn; lia.
Qed.

Lemma engine_reachable_balanced (e : Engine) :
  rtc engine_step engine_init e -> slots_balanced e.
Proof.
  intros Hr.
  assert (Hgen : forall x y, rtc engine_step x y -> slots_balanced x -> slots_balanced y).
  { intros x y Hxy. induction Hxy as [x|x y z Hs _ IH]; [auto|].
    intros Hx. apply IH. exact (engine_step_balanced x y Hs Hx). }
  apply (Hgen engine_init); [exact Hr | reflexivity].
Qed.

(** C7. In every state reachable from the node's start, whatever the
    interleaving of fan-outs, acquisitions, sleeps, calls and failures, the
    number of outbound relay calls in flight (and even of relay tasks
    holding a slot) is at most [MAX_CONCURRENT_SENDS] = 125. *)
Theorem in_flight_bounded (e : Engine) (Hreach : rtc engine_step engine_init e) :
  (in_flight e <= count_phase holds_slot (relays e) <= MAX_CONCURRENT_SENDS)%nat.
Proof.
  pose proof (engine_reachable_balanced e Hreach) as Hb. unfold slots_balanced in Hb.
  unfold in_flight. split; [apply count_calling_le_holding | lia].
Qed.

Lemma in_flight_bounded_witness :
  rtc engine_step engine_init (mkEngine 124 [Calling]) /\
  (in_flight (mkEngine 124 [Calling])
     <= count_phase holds_slot (relays (mkEngine 124 [Calling]))
     <= MAX_CONCURRENT_SENDS)%nat.
Proof.
  assert (Hr : rtc engine_step engine_init (mkEngine 124 [Calling])).
  { eapply rtc_l; [apply (es_spawn MAX_CONCURRENT_SENDS [])|].
    eapply rtc_l; [apply (es_acquire 124 [] [])|].
    eapply rtc_l; [apply (es_wake 124 [] [])|].
    apply rtc_refl. }
  split; [exact Hr|]. exact (in_flight_bounded _ Hr).
Defined.

(** ** C8: timing and content of one relay *)

Lemma py_int_nonneg (q : Q) : (0 <= q)%Q -> py_int q = Qfloor q.
Proof.
  intros Hq. unfold py_int. apply Qle_bool_iff in Hq. rewrite Hq. reflexivity.
Qed.

(** C8 (as the code behaves). A relay task reads the clock when it starts
    ([send_timestamp]), then acquires a semaphore slot, sleeps [int(weight)]
    milliseconds (the weight truncated toward zero; no delay when that is
    not positive), then calls [SendMessage] on the peer with its own
    address as sender, the start time as timestamp, the weight as
    [latency_ms] and the round of the fan-out.  The timestamp is therefore
    the task's start time, not the time of the call. *)
Theorem relay_task_timing (self : Node) (t : RelayTask) (clock0 wait dur : Z)
    (outcome : CallOutcome) :
  (exists rest,
    fst (_send_gossip_to_peer self t clock0 wait dur outcome) =
      [(clock0 + wait, AcquireSlot);
       (clock0 + wait, SleepMs (py_int (rt_peer_weight t)));
       (clock0 + wait + Z.max 0 (py_int (rt_peer_weight t)) * 1000000,
        Call (rt_peer_ip t)
          (mkGossipMessage (rt_message t) (host self) clock0
             (rt_peer_weight t) (rt_round t)))] ++ rest) /\
  ((0 <= rt_peer_weight t)%Q -> py_int (rt_peer_weight t) = Qfloor (rt_peer_weight t)).
Proof.
  split; [|apply py_int_nonneg].
  unfold _send_gossip_to_peer. eexists. cbn. reflexivity.
Qed.

(** C8, refuted: over an edge of weight 5 with a free slot, the call
    happens 5 ms after the task started but carries the start time as its
    timestamp; over an edge of weight 2.5 the task sleeps 2 ms. *)
Lemma relay_sent_at_is_task_start :
  fst (_send_gossip_to_peer node_x (mkRelay "m1" "10.0.0.1" "10.0.0.2" 5%Q 0) 0 0 0 CallOk)
    = [(0, AcquireSlot); (0, SleepMs 5);
       (5000000, Call "10.0.0.2" (mkGossipMessage "m1" "10.0.0.1" 0 5%Q 0));
       (5000000, ReleaseSlot)] /\
  fst (_send_gossip_to_peer node_x (mkRelay "m1" "10.0.0.1" "10.0.0.2" (5 # 2)%Q 0)
         0 0 0 CallOk)
    = [(0, AcquireSlot); (0, SleepMs 2);
       (2000000, Call "10.0.0.2" (mkGossipMessage "m1" "10.0.0.1" 0 (5 # 2)%Q 0));
       (2000000, ReleaseSlot)].
Proof. vm_compute. split; reflexivity. Qed.

(** ** C9: relay failures stay inside their task *)

Lemma send_gossip_to_peer_never_raises (self : Node) (t : RelayTask)
    (clock0 wait dur : Z) (outcome : CallOutcome) :
  snd (_send_gossip_to_peer self t clock0 wait dur outcome) = Ok tt.
Proof. unfold _send_gossip_to_peer. cbn. destruct outcome; reflexivity. Qed.

(** C9. Whatever the outcome of each outbound call, every relay task of a
    fan-out ends normally (a failure is caught and logged inside it), the
    fan-out itself returns normally, and every task attempts its call and
    releases its slot in its own environment, independently of the
    failures of its siblings. *)
Theorem relay_failures_contained (self : Node) (j : GossipJob)
    (env : RelayTask -> TaskEnv) :
  let '(traces, res) := run_gossip_job self j env in
  res = Ok (map (fun _ => Ok tt) (gossip_message self j)) /\
  Forall2 (fun t tr =>
      snd (run_relay self env t) = Ok tt /\
      tr = fst (_send_gossip_to_peer self t (te_clock0 (env t)) (te_acquire_wait (env t))
                  (te_call_duration (env t)) (te_outcome (env t))) /\
      (exists tm req, (tm, Call (rt_peer_ip t) req) ∈ tr) /\
      (forall e, te_outcome (env t) = CallError e ->
         exists tm, (tm, LogFailure (rt_peer_ip t) e) ∈ tr) /\
      (exists tm, (tm, ReleaseSlot) ∈ tr))
    (gossip_message self j) traces.
Proof.
  assert (Hsnd : forall t, snd (run_relay self env t) = Ok tt)
    by (intros t; unfold run_relay; apply send_gossip_to_peer_never_raises).
  unfold run_gossip_job. split.
  - destruct (gossip_message self j) as [|t ts]; [reflexivity|].
    cbn - [run_relay]. unfold gather_return_exceptions. f_equal. f_equal.
    + apply Hsnd.
    + rewrite map_map. apply map_ext. exact Hsnd.
  - induction (gossip_message self j) as [|t ts IH]; cbn; [constructor|].
    constructor; [|exact IH].
    split; [apply Hsnd|]. split; [reflexivity|].
    unfold run_relay, _send_gossip_to_peer. cbn.
    split; [do 2 eexists; do 2 apply list_elem_of_further; apply list_elem_of_here|].
    split.
    + intros e He. rewrite He. eexists.
      do 3 apply list_elem_of_further. apply list_elem_of_here.
    + destruct (te_outcome (env t)); eexists; cbn;
        repeat (apply list_elem_of_here || apply list_elem_of_further).
Qed.

(** * Further properties of the node *)

(** ** [Node.get_neighbors_from_db] and [Node.__init__]

    [file_exists] is [os.path.exists('ned.db')].  When the file exists but
    has no [NEIGHBORS] table the [SELECT] raises, the exception is caught
    and the list keeps its value.  [SELECT pod_ip, weight from NEIGHBORS]
    scans the table in rowid order, i.e. in insertion order. *)
Definition get_neighbors_from_db (file_exists : bool) (db : Db)
    (current : list (string * Q)) : list (string * Q) :=
  if file_exists then
    match db with
    | Some rows => rows
    | None => current
    end
  else current.

Definition Node_init (hn h : string) (file_exists : bool) (db : Db) : Node :=
  mkNode hn h (get_neighbors_from_db file_exists db []) ∅ MAX_CONCURRENT_SENDS [].

Lemma update_ok_error (e : string) :
  update_ok (mkAck (String.append "Error: " e)) = false.
Proof. reflexivity. Qed.

Lemma db_replace_ok (io : option string) (rows table : list (string * Q)) :
  db_replace io rows = Ok table -> io = None /\ table = rows /\ NoDup (map fst rows).
Proof.
  destruct io as [e|]; [discriminate|]. rewrite db_replace_no_io.
  case_bool_decide as Hnd; intros H; inversion H; subst; repeat split; auto.
Qed.

Lemma UpdateNeighbors_ok_inv (n : Node) nbrs (db : Db) io n1 (db1 : Db) ack :
  UpdateNeighbors n nbrs db io = (n1, db1, ack) -> update_ok ack = true ->
  io = None /\ NoDup (map fst nbrs) /\ db1 = Some nbrs /\
  n1 = set_received (set_nodes n nbrs) ∅.
Proof.
  unfold UpdateNeighbors. destruct (db_replace io _) as [table|e] eqn:Hdb.
  - intros H _. inversion H; subst. cbn in Hdb.
    apply db_replace_ok in Hdb as (? & -> & ?). repeat split; auto.
  - intros H. inversion H; subst. rewrite update_ok_error. discriminate.
Qed.

(** A successful [UpdateNeighbors] leaves memory and disk equal: the new
    list has pairwise distinct addresses, it is the in-memory table and the
    content of the store. *)
Theorem UpdateNeighbors_ok_store_matches_memory (n : Node) nbrs (db : Db) io n1
    (db1 : Db) ack
    (Hupd : UpdateNeighbors n nbrs db io = (n1, db1, ack))
    (Hok : update_ok ack = true) :
  db1 = Some (susceptible_nodes n1) /\ susceptible_nodes n1 = nbrs /\
  NoDup (map fst nbrs).
Proof.
  destruct (UpdateNeighbors_ok_inv n nbrs db io n1 db1 ack Hupd Hok)
    as (_ & Hnd & -> & ->).
  repeat split; auto.
Qed.

Lemma UpdateNeighbors_ok_store_matches_memory_witness :
  update_ok ack_updated = true /\
  Some [("10.0.0.4", 5%Q)] =
    Some (susceptible_nodes (set_received (set_nodes node_x [("10.0.0.4", 5%Q)]) ∅)) /\
  susceptible_nodes (set_received (set_nodes node_x [("10.0.0.4", 5%Q)]) ∅)
    = [("10.0.0.4", 5%Q)] /\
  NoDup (map fst [("10.0.0.4", 5%Q)]).
Proof.
  split; [reflexivity|].
  apply (UpdateNeighbors_ok_store_matches_memory node_x [("10.0.0.4", 5%Q)] None None
           (set_received (set_nodes node_x [("10.0.0.4", 5%Q)]) ∅)
           (Some [("10.0.0.4", 5%Q)]) ack_updated); reflexivity.
Defined.

(** After a successful [UpdateNeighbors], a node process restarted on the
    same [ned.db] loads exactly the neighbor list that was installed. *)
Theorem UpdateNeighbors_restart_roundtrip (n : Node) nbrs (db : Db) io n1 (db1 : Db)
    ack (hn h : string)
    (Hupd : UpdateNeighbors n nbrs db io = (n1, db1, ack))
    (Hok : update_ok ack = true) :
  susceptible_nodes (Node_init hn h true db1) = susceptible_nodes n1 /\
  susceptible_nodes n1 = nbrs.
Proof.
  destruct (UpdateNeighbors_ok_inv n nbrs db io n1 db1 ack Hupd Hok)
    as (_ & _ & -> & ->).
  split; reflexivity.
Qed.

Lemma UpdateNeighbors_restart_roundtrip_witness :
  update_ok ack_updated = true /\
  susceptible_nodes (Node_init "y" "10.0.0.9" true (Some [("10.0.0.4", 5%Q)]))
    = susceptible_nodes (set_received (set_nodes node_x [("10.0.0.4", 5%Q)]) ∅) /\
  susceptible_nodes (set_received (set_nodes node_x [("10.0.0.4", 5%Q)]) ∅)
    = [("10.0.0.4", 5%Q)].
Proof.
  split; [reflexivity|].
  apply (UpdateNeighbors_restart_roundtrip node_x [("10.0.0.4", 5%Q)] None None
           (set_received (set_nodes node_x [("10.0.0.4", 5%Q)]) ∅)
           (Some [("10.0.0.4", 5%Q)]) ack_updated "y" "10.0.0.9"); reflexivity.
Defined.

(** Calling [UpdateNeighbors] a second time with the same list changes
    nothing: same node state, same store, same Ack, whether the first call
    succeeded or not. *)
Theorem UpdateNeighbors_idempotent (n : Node) nbrs (db : Db) :
  let '(n1, db1, a1) := UpdateNeighbors n nbrs db None in
  UpdateNeighbors n1 nbrs db1 None = (n1, db1, a1).
Proof.
  unfold UpdateNeighbors at 1. rewrite db_replace_no_io.
  case_bool_decide as Hnd; unfold UpdateNeighbors; cbn -[db_replace];
    rewrite db_replace_no_io; cbn.
  - rewrite bool_decide_eq_true_2 by exact Hnd. reflexivity.
  - rewrite bool_decide_eq_false_2 by exact Hnd. reflexivity.
Qed.

(** ** [SendMessage] never touches the neighbor table *)

Lemma SendMessage_state (n : Node) (r : GossipMessage) (now : Z) :
  let '(n', _, _) := SendMessage n r now in
  hostname n' = hostname n /\ host n' = host n /\
  susceptible_nodes n' = susceptible_nodes n /\ semaphore n' = semaphore n /\
  received_message_ids n' = {[ message r ]} ∪ received_message_ids n /\
  (tasks n' = tasks n \/
   exists j, tasks n' = tasks n ++ [j] /\ gj_message j = message r /\
             gj_sender j = sender_id r).
Proof.
  unfold SendMessage. destruct (String.eqb _ _).
  - cbn. repeat split; try reflexivity. right. eexists. repeat split.
  - case_bool_decide as Hin.
    + repeat split; try reflexivity; [set_solver | left; reflexivity].
    + cbn. repeat split; try reflexivity. right. eexists. repeat split.
Qed.

(** Every [SendMessage] leaves the host, the neighbor list and the
    semaphore as they were, adds exactly the delivered id to the seen set,
    and starts at most one fan-out, for that id and its sender. *)
Theorem SendMessage_frame (n : Node) (r : GossipMessage) (now : Z) :
  let '(n', _, _) := SendMessage n r now in
  hostname n' = hostname n /\ host n' = host n /\
  susceptible_nodes n' = susceptible_nodes n /\ semaphore n' = semaphore n /\
  received_message_ids n' = {[ message r ]} ∪ received_message_ids n /\
  (tasks n' = tasks n \/
   exists j, tasks n' = tasks n ++ [j] /\ gj_message j = message r /\
             gj_sender j = sender_id r).
Proof. apply SendMessage_state. Qed.

(** ** From a received message to the requests it relays *)

(** When a node accepts a fresh id from another peer, the fan-out it
    starts relays to neighbors other than that peer only, and every
    outgoing request carries the same id, the node's own address as
    sender, the relay's start time as timestamp, the edge weight as
    latency and the incoming round plus one. *)
Theorem received_relay_requests (n : Node) (r : GossipMessage) (now : Z)
    (Hother : sender_id r <> host n)
    (Hfresh : message r ∉ received_message_ids n) :
  let '(n1, _, _) := SendMessage n r now in
  exists j, tasks n1 = tasks n ++ [j] /\
  Forall (fun t =>
      rt_peer_ip t <> sender_id r /\
      (rt_peer_ip t, rt_peer_weight t) ∈ susceptible_nodes n /\
      forall clock0 wait dur outcome,
        exists tm, (tm, Call (rt_peer_ip t)
                      (mkGossipMessage (message r) (host n) clock0
                         (rt_peer_weight t) (round_count r + 1)))
                   ∈ fst (_send_gossip_to_peer n1 t clock0 wait dur outcome))
    (gossip_message n1 j).
Proof.
  unfold SendMessage.
  destruct (String.eqb_spec (sender_id r) (host n)) as [Heq|_]; [contradiction|].
  rewrite bool_decide_eq_false_2 by exact Hfresh.
  eexists. split; [reflexivity|].
  unfold gossip_message. cbn [gj_message gj_sender gj_round susceptible_nodes spawn set_received].
  pose proof (schedule_relays_fields (message r) (sender_id r) (round_count r + 1)
                (susceptible_nodes n)) as Hf.
  pose proof (schedule_relays_ips (message r) (sender_id r) (round_count r + 1)
                (susceptible_nodes n)) as Hips.
  assert (Hnot : Forall (fun t => rt_peer_ip t <> sender_id r)
                   (schedule_relays (message r) (sender_id r) (round_count r + 1)
                      (susceptible_nodes n))).
  { apply Forall_forall. intros t Ht Heq.
    assert (Hin : rt_peer_ip t ∈ map rt_peer_ip
                    (schedule_relays (message r) (sender_id r) (round_count r + 1)
                       (susceptible_nodes n))).
    { apply list_elem_of_In, in_map, list_elem_of_In. exact Ht. }
    rewrite Hips in Hin. apply list_elem_of_In, filter_In in Hin as [_ Hb].
    rewrite Heq, String.eqb_refl in Hb. discriminate. }
  apply Forall_forall. intros t Ht.
  rewrite Forall_forall in Hf, Hnot.
  destruct (Hf t Ht) as (Hm & _ & Hr & Hw).
  split; [exact (Hnot t Ht)|]. split; [exact Hw|].
  intros clock0 wait dur outcome. unfold _send_gossip_to_peer. cbn.
  rewrite Hm, Hr. eexists.
  do 2 apply list_elem_of_further. apply list_elem_of_here.
Qed.

Lemma received_relay_requests_witness :
  sender_id (msg_from "m1" "10.0.0.2" 0 0) <> host node_x /\
  (message (msg_from "m1" "10.0.0.2" 0 0) ∉ received_message_ids node_x) /\
  let '(n1, _, _) := SendMessage node_x (msg_from "m1" "10.0.0.2" 0 0) 5 in
  exists j, tasks n1 = tasks node_x ++ [j] /\
  Forall (fun t =>
      rt_peer_ip t <> sender_id (msg_from "m1" "10.0.0.2" 0 0) /\
      (rt_peer_ip t, rt_peer_weight t) ∈ susceptible_nodes node_x /\
      forall clock0 wait dur outcome,
        exists tm, (tm, Call (rt_peer_ip t)
                      (mkGossipMessage (message (msg_from "m1" "10.0.0.2" 0 0))
                         (host node_x) clock0 (rt_peer_weight t)
                         (round_count (msg_from "m1" "10.0.0.2" 0 0) + 1)))
                   ∈ fst (_send_gossip_to_peer n1 t clock0 wait dur outcome))
    (gossip_message n1 j).
Proof.
  split; [discriminate|]. split; [cbn; set_solver|].
  apply (received_relay_requests node_x (msg_from "m1" "10.0.0.2" 0 0) 5).
  - discriminate.
  - cbn. set_solver.
Defined.

(** ** The seen set over a sequence of deliveries *)

Lemma send_all_state (reqs : list (GossipMessage * Z)) :
  forall n : Node,
  host (fst (send_all n reqs)) = host n /\
  susceptible_nodes (fst (send_all n reqs)) = susceptible_nodes n /\
  received_message_ids (fst (send_all n reqs))
    = list_to_set (map (fun p => message (fst p)) reqs) ∪ received_message_ids n.
Proof.
  induction reqs as [|[r now] rest IH]; intros n; cbn.
  - repeat split. set_solver.
  - pose proof (SendMessage_state n r now) as Hf.
    destruct (SendMessage n r now) as [[n1 ev] a].
    destruct Hf as (_ & Hh & Hs & _ & Hm & _).
    destruct (IH n1) as (Hh' & Hs' & Hm').
    destruct (send_all n1 rest) as [n2 outs]. cbn in *.
    rewrite Hh', Hs', Hm', Hm, Hh, Hs. repeat split. set_solver.
Qed.

(** Within an epoch a node never forgets an id: after any sequence of
    deliveries the seen set is the old one plus every delivered id, and
    the neighbor list and host are unchanged. *)
Theorem send_all_seen_accumulates (n : Node) (reqs : list (GossipMessage * Z)) :
  received_message_ids (fst (send_all n reqs))
    = list_to_set (map (fun p => message (fst p)) reqs) ∪ received_message_ids n /\
  susceptible_nodes (fst (send_all n reqs)) = susceptible_nodes n /\
  host (fst (send_all n reqs)) = host n.
Proof. destruct (send_all_state reqs n) as (? & ? & ?). auto. Qed.

Fixpoint sum_nat (l : list nat) : nat :=
  match l with [] => 0 | x :: rest => x + sum_nat rest end%nat.

Lemma sum_forall2_dup (m : string) (h : string) (rest : list (GossipMessage * Z))
    (outs : list (EventType * nat)) :
  Forall (fun p => sender_id (fst p) <> h) rest ->
  Forall2 (fun p o => if String.eqb (sender_id (fst p)) h
                      then o = (Initiate, 1%nat) else o = (Duplicate, 0%nat)) rest outs ->
  sum_nat (map snd outs) = 0%nat.
Proof.
  intros Hs H2. induction H2 as [|p o ps os Ho _ IH]; [reflexivity|].
  apply Forall_cons_1 in Hs as [Hp Hs].
  rewrite (proj2 (String.eqb_neq _ _) Hp) in Ho. subst. cbn. apply IH, Hs.
Qed.

(** If every delivery of a fresh id within an epoch comes from another
    peer, the node starts exactly one fan-out for it in total, however many
    deliveries there are. *)
Theorem one_fanout_per_fresh_id (n : Node) (m : string)
    (reqs : list (GossipMessage * Z))
    (Hfresh : m ∉ received_message_ids n)
    (Hne : reqs <> [])
    (Hreqs : Forall (fun p => message (fst p) = m /\ sender_id (fst p) <> host n) reqs) :
  sum_nat (map snd (snd (send_all n reqs))) = 1%nat.
Proof.
  destruct reqs as [|[r0 t0] rest]; [contradiction|].
  apply Forall_cons_1 in Hreqs as [[Hm0 Hs0] Hrest]. cbn in Hm0, Hs0.
  cbn.
  pose proof (SendMessage_host n r0 t0) as Hhost.
  pose proof (SendMessage_marks n r0 t0) as Hmarks.
  assert (Hlen : length (tasks (fst (fst (SendMessage n r0 t0)))) = S (length (tasks n))).
  { unfold SendMessage. rewrite (proj2 (String.eqb_neq _ _) Hs0).
    rewrite bool_decide_eq_false_2 by (rewrite Hm0; exact Hfresh).
    cbn. rewrite length_app. cbn. lia. }
  destruct (SendMessage n r0 t0) as [[n1 ev] a]. cbn in Hhost, Hmarks, Hlen.
  pose proof (send_all_after_seen m rest n1) as Hlater.
  destruct (send_all n1 rest) as [n2 outs]. cbn in *.
  rewrite Hlen, Nat.sub_succ_l, Nat.sub_diag by lia. cbn.
  rewrite (sum_forall2_dup m (host n1) rest outs); [reflexivity| |].
  - eapply Forall_impl; [exact Hrest|]. intros p [_ Hp]. rewrite Hhost. exact Hp.
  - apply Hlater; [rewrite Hmarks; set_solver|].
    eapply Forall_impl; [exact Hrest|]. intros p [Hp _]. exact Hp.
Qed.

Lemma one_fanout_per_fresh_id_witness :
  sum_nat (map snd (snd (send_all node_x
     [(msg_from "m1" "10.0.0.2" 0 0, 1); (msg_from "m1" "10.0.0.3" 0 1, 2);
      (msg_from "m1" "10.0.0.2" 0 2, 3)]))) = 1%nat.
Proof.
  apply (one_fanout_per_fresh_id node_x "m1").
  - cbn. set_solver.
  - discriminate.
  - repeat constructor; discriminate.
Defined.

(** * The control plane: [prepare.py] and [prepare_new.py]

    These scripts compute each pod's neighbor list from a topology file,
    write it into the pod's [ned.db] and tell the node to reload it.  The
    [kubectl] subprocesses are modelled by their outcomes. *)

(** ** [run_command_with_retry]

    Python text is a sequence of code points.  [outcomes k] is what
    [subprocess.run(..., text=True)] does on attempt [k]: return its decoded
    stdout, raise [CalledProcessError] with a return code and stderr, raise
    [TimeoutExpired], or raise another exception (with its [str]). *)
Abbreviation pystr := (list Z).

(** A literal of the source, all of whose characters are ASCII. *)
Definition lit (s : string) : pystr :=
  map (fun c => Z.of_nat (Ascii.nat_of_ascii c)) (list_ascii_of_string s).

Inductive CmdOutcome :=
  | CmdOk (stdout : pystr)
  | CmdExit (returncode : Z) (stderr : pystr)
  | CmdTimeout
  | CmdOther (err : pystr).

Definition is_cmd_ok (o : CmdOutcome) : bool :=
  match o with CmdOk _ => true | _ => false end.

(** [str.isspace()] of one code point: the characters [str.strip()] with no
    argument removes (tab to carriage return, the four information
    separators, space, NEL, no-break space, the Ogham space mark, the
    en quad to hair space, the line and paragraph separators, the narrow
    no-break space, the medium mathematical space and the ideographic
    space). *)
Definition py_isspace (c : Z) : bool :=
  ((9 <=? c) && (c <=? 13)) || ((28 <=? c) && (c <=? 32)) ||
  (c =? 133) || (c =? 160) || (c =? 5760) ||
  ((8192 <=? c) && (c <=? 8202)) || (c =? 8232) || (c =? 8233) ||
  (c =? 8239) || (c =? 8287) || (c =? 12288).

Fixpoint py_lstrip (s : pystr) : pystr :=
  match s with
  | [] => []
  | c :: rest => if py_isspace c then py_lstrip rest else s
  end.

(** [s.strip()]. *)
Definition py_strip (s : pystr) : pystr := rev (py_lstrip (rev (py_lstrip s))).

(** The [last_error] f-strings of the three [except] clauses. *)
Definition cmd_error_text (timeout : nat) (o : CmdOutcome) : pystr :=
  match o with
  | CmdOk _ => []
  | CmdExit code err => lit "Exit " ++ lit (pretty code) ++ lit ": " ++ py_strip err
  | CmdTimeout => lit "Timed out after " ++ lit (pretty timeout) ++ lit "s"
  | CmdOther e => lit "Unexpected error: " ++ e
  end.

(** The final [f"Failed after {retries} attempts. Last error: {last_error}"]. *)
Definition failure_text (retries : nat) (last_error : pystr) : pystr :=
  lit "Failed after " ++ lit (pretty retries) ++ lit " attempts. Last error: " ++ last_error.

(** [for attempt in range(retries)] from [attempt] on, with [fuel] attempts
    left.  Besides the result, the attempts after which the loop slept
    ([time.sleep((backoff ** attempt) + random.uniform(0.5, 1.5))]). *)
Fixpoint retry_loop (outcomes : nat -> CmdOutcome) (timeout retries attempt fuel : nat)
    (last_error : pystr) : (bool * pystr) * list nat :=
  match fuel with
  | O => ((false, failure_text retries last_error), [])
  | S f =>
      match outcomes attempt with
      | CmdOk out => ((true, py_strip out), [])
      | o =>
          let '(res, sleeps) :=
            retry_loop outcomes timeout retries (S attempt) f (cmd_error_text timeout o) in
          (res, if Nat.ltb attempt (retries - 1) then attempt :: sleeps else sleeps)
      end
  end.

Definition run_command_with_retry (outcomes : nat -> CmdOutcome) (timeout retries : nat)
    : (bool * pystr) * list nat :=
  retry_loop outcomes timeout retries 0 retries [].

(** ** [update_all_pods] of [prepare.py]

    Phase 1 writes every pod's database ([db_ok p]: the retried
    [update_pod_neighbors] succeeded and its future raised nothing);
    phase 2 notifies the pods whose database write succeeded
    ([notify_ok p]).  Only counts and the set of notified pods matter, so
    the completion order of the thread pool is not modelled.  Returns the
    result and the pods that were notified. *)
Definition update_all_pods (pod_list : list string) (db_ok notify_ok : string -> bool)
    : bool * list string :=
  let pods_to_notify := List.filter db_ok pod_list in
  if Nat.eqb (length pods_to_notify) 0 then (false, [])
  else (Nat.eqb (length (List.filter notify_ok pods_to_notify)) (length pod_list),
        pods_to_notify).

(** ** [update_pod_full_flow] and [update_all_pods] of [prepare_new.py]

    Each pod runs the database phase, then the notification phase only if
    the first succeeded. *)
Definition update_pod_full_flow (db_res : bool * string) (notify_res : bool * string)
    : (bool * string) * bool :=
  if negb (fst db_res) then ((false, snd db_res), false)
  else if negb (fst notify_res) then ((false, snd notify_res), true)
  else ((true, "Synchronized"), true).

Definition update_all_pods_new (pod_list : list string)
    (db_res notify_res : string -> bool * string) : bool :=
  let success_count :=
    length (List.filter (fun p => fst (fst (update_pod_full_flow (db_res p) (notify_res p))))
              pod_list) in
  Nat.eqb success_count (length pod_list).

(** Helper facts for the control plane. *)
Lemma filter_length_full {A} (f : A -> bool) (l : list A) :
  length (List.filter f l) = length l <-> Forall (fun x => f x = true) l.
Proof.
  induction l as [|x l IH]; cbn; [split; auto|].
  destruct (f x) eqn:Hf; cbn.
  - split.
    + intros H. constructor; [done|]. apply IH. lia.
    + intros H. apply Forall_cons_1 in H as [_ H]. apply IH in H. lia.
  - split.
    + intros H. pose proof (List.filter_length_le f l). lia.
    + intros H. apply Forall_cons_1 in H as [H _]. congruence.
Qed.

Lemma retry_loop_success (outcomes : nat -> CmdOutcome) (timeout retries k : nat) out :
  forall (f a : nat) last, (a <= k < a + f)%nat -> (a + f = retries)%nat ->
  outcomes k = CmdOk out ->
  (forall j : nat, (a <= j < k)%nat -> is_cmd_ok (outcomes j) = false) ->
  retry_loop outcomes timeout retries a f last = ((true, py_strip out), seq a (k - a)).
Proof.
  induction f as [|f IH]; intros a last Hk Hr Hok Hfail; [lia|].
  cbn -[Nat.ltb]. destruct (decide (a = k)) as [->|Hne].
  - rewrite Hok. by replace (k - k)%nat with 0%nat by lia.
  - assert (Ha : is_cmd_ok (outcomes a) = false) by (apply Hfail; lia).
    replace (k - a)%nat with (S (k - S a)) by lia.
    assert (Hlt : Nat.ltb a (retries - 1) = true) by (apply Nat.ltb_lt; lia).
    destruct (outcomes a); cbn in Ha; try discriminate;
      rewrite (IH (S a) _ ltac:(lia) ltac:(lia) Hok ltac:(intros j Hj; apply Hfail; lia));
      rewrite Hlt; done.
Qed.

Lemma retry_loop_failure (outcomes : nat -> CmdOutcome) (timeout retries : nat) :
  forall (f a : nat) last, (a + S f = retries)%nat ->
  (forall j : nat, (a <= j < retries)%nat -> is_cmd_ok (outcomes j) = false) ->
  retry_loop outcomes timeout retries a (S f) last =
    ((false, failure_text retries (cmd_error_text timeout (outcomes (retries - 1)%nat))),
     seq a f).
Proof.
  induction f as [|f IH]; intros a last Hr Hfail.
  - cbn -[Nat.ltb]. assert (Ha : is_cmd_ok (outcomes a) = false) by (apply Hfail; lia).
    replace (retries - 1)%nat with a by lia.
    destruct (outcomes a); cbn in Ha; try discriminate; cbn -[Nat.ltb];
      by rewrite Nat.ltb_irrefl.
  - assert (Ha : is_cmd_ok (outcomes a) = false) by (apply Hfail; lia).
    assert (Hlt : Nat.ltb a (retries - 1) = true) by (apply Nat.ltb_lt; lia).
    remember (S f) as g. cbn -[Nat.ltb]. subst g.
    destruct (outcomes a); cbn in Ha; try discriminate;
      rewrite (IH (S a) _ ltac:(lia) ltac:(intros j Hj; apply Hfail; lia));
      rewrite Hlt; done.
Qed.

(** [run_command_with_retry] returns on the first successful attempt [k]
    (before [retries]) with the stripped stdout, having slept once after each
    of the [k] failed attempts before it. *)
Theorem run_command_with_retry_first_success (outcomes : nat -> CmdOutcome)
    (timeout retries k : nat) out
    (Hk : (k < retries)%nat) (Hok : outcomes k = CmdOk out)
    (Hfail : forall j : nat, (j < k)%nat -> is_cmd_ok (outcomes j) = false) :
  run_command_with_retry outcomes timeout retries = ((true, py_strip out), seq 0 k).
Proof.
  unfold run_command_with_retry.
  rewrite (retry_loop_success outcomes timeout retries k out retries 0 []);
    [by rewrite Nat.sub_0_r|lia|lia|done|intros j Hj; apply Hfail; lia].
Qed.

(** When all [retries] attempts fail, [run_command_with_retry] returns
    [False] with a message naming the number of attempts and the error of
    the last attempt; it slept after every attempt but the last. *)
Theorem run_command_with_retry_all_fail (outcomes : nat -> CmdOutcome)
    (timeout retries : nat)
    (Hpos : (0 < retries)%nat)
    (Hfail : forall j : nat, (j < retries)%nat -> is_cmd_ok (outcomes j) = false) :
  run_command_with_retry outcomes timeout retries =
    ((false, failure_text retries (cmd_error_text timeout (outcomes (retries - 1)%nat))),
     seq 0 (retries - 1)%nat).
Proof.
  unfold run_command_with_retry. destruct retries as [|r]; [lia|].
  rewrite (retry_loop_failure outcomes timeout (S r) r 0 []);
    [by replace (S r - 1)%nat with r by lia|lia|intros j Hj; apply Hfail; lia].
Qed.

(** [prepare.py]'s [update_all_pods] returns [True] exactly when the
    mapping is not empty and every pod's database update and notification
    succeeded; an empty mapping gives [False]. *)
Theorem update_all_pods_result pod_list db_ok notify_ok :
  fst (update_all_pods pod_list db_ok notify_ok) = true <->
  pod_list <> [] /\ Forall (fun p => db_ok p = true /\ notify_ok p = true) pod_list.
Proof.
  unfold update_all_pods.
  destruct (Nat.eqb (length (List.filter db_ok pod_list)) 0) eqn:He; cbn.
  - apply Nat.eqb_eq, length_zero_iff_nil in He. split; [discriminate|].
    intros [Hne Hall]. destruct pod_list as [|p ps]; [done|].
    apply Forall_cons_1 in Hall as [[Hd _] _]. cbn in He. rewrite Hd in He. discriminate.
  - rewrite Nat.eqb_eq. split.
    + intros Hlen.
      pose proof (List.filter_length_le notify_ok (List.filter db_ok pod_list)) as H1.
      pose proof (List.filter_length_le db_ok pod_list) as H2.
      assert (Hdb : length (List.filter db_ok pod_list) = length pod_list) by lia.
      apply filter_length_full in Hdb.
      assert (Hn : length (List.filter notify_ok (List.filter db_ok pod_list))
                   = length (List.filter db_ok pod_list)) by lia.
      apply filter_length_full in Hn.
      split.
      * intros ->. cbn in He. discriminate.
      * apply Forall_forall. intros p Hp.
        rewrite Forall_forall in Hdb, Hn. split; [by apply Hdb|].
        apply Hn. apply list_elem_of_In, List.filter_In. split.
        -- by apply list_elem_of_In.
        -- by apply Hdb.
    + intros [_ Hall].
      assert (Hdb : Forall (fun p => db_ok p = true) pod_list)
        by (eapply Forall_impl; [exact Hall|]; by intros ? []).
      apply filter_length_full in Hdb as Hdbl.
      rewrite <- Hdbl. apply filter_length_full.
      apply Forall_forall. intros p Hp.
      apply list_elem_of_In, List.filter_In in Hp as [Hp _].
      apply list_elem_of_In in Hp. rewrite Forall_forall in Hall. by apply Hall.
Qed.

(** [prepare_new.py]'s [update_all_pods] returns [True] exactly when every
    pod's database update and notification succeeded; in particular it
    returns [True] for an empty mapping. *)
Theorem update_all_pods_new_result pod_list db_res notify_res :
  update_all_pods_new pod_list db_res notify_res = true <->
  Forall (fun p => fst (db_res p) = true /\ fst (notify_res p) = true) pod_list.
Proof.
  unfold update_all_pods_new. rewrite Nat.eqb_eq, filter_length_full.
  split; intros H; eapply Forall_impl; try exact H; intros p; unfold update_pod_full_flow;
    destruct (db_res p) as [[] ?], (notify_res p) as [[] ?]; cbn; intuition congruence.
Qed.

(** A [kubectl] call refused once by the API server, then answered; its
    stdout is framed by a no-break space, an information separator and a
    newline. *)
Definition kubectl_flaky_stdout : pystr := [160] ++ lit "Success" ++ [28; 10].

Definition kubectl_flaky (k : nat) : CmdOutcome :=
  if Nat.eqb k 0 then CmdExit 1 (lit " connection refused" ++ [10])
  else CmdOk kubectl_flaky_stdout.

Definition kubectl_down (k : nat) : CmdOutcome :=
  if Nat.eqb k 2 then CmdTimeout else CmdExit 1 (lit "connection refused" ++ [133]).

Lemma run_command_with_retry_first_success_witness :
  (1 < 5)%nat /\ kubectl_flaky 1 = CmdOk kubectl_flaky_stdout /\
  (forall j : nat, (j < 1)%nat -> is_cmd_ok (kubectl_flaky j) = false) /\
  run_command_with_retry kubectl_flaky 300 5 = ((true, py_strip kubectl_flaky_stdout), seq 0 1) /\
  py_strip kubectl_flaky_stdout = lit "Success".
Proof.
  assert (Hf : forall j : nat, (j < 1)%nat -> is_cmd_ok (kubectl_flaky j) = false)
    by (intros j Hj; replace j with 0%nat by lia; reflexivity).
  split; [lia|]. split; [reflexivity|]. split; [exact Hf|]. split.
  - apply (run_command_with_retry_first_success kubectl_flaky 300 5 1); [lia|reflexivity|exact Hf].
  - vm_compute. reflexivity.
Defined.

Lemma run_command_with_retry_all_fail_witness :
  (0 < 3)%nat /\
  (forall j : nat, (j < 3)%nat -> is_cmd_ok (kubectl_down j) = false) /\
  run_command_with_retry kubectl_down 60 3 =
    ((false, failure_text 3 (cmd_error_text 60 (kubectl_down (3 - 1)%nat))), seq 0 (3 - 1)%nat) /\
  cmd_error_text 60 (kubectl_down 1) = lit "Exit 1: connection refused".
Proof.
  assert (Hf : forall j : nat, (j < 3)%nat -> is_cmd_ok (kubectl_down j) = false)
    by (intros j Hj; unfold kubectl_down; destruct (Nat.eqb j 2); reflexivity).
  split; [lia|]. split; [exact Hf|]. split.
  - apply (run_command_with_retry_all_fail kubectl_down 60 3); [lia|exact Hf].
  - vm_compute. reflexivity.
Defined.

(** ** [get_pod_neighbors]

    A topology file has a list of nodes (their [id]s), a list of edges and,
    possibly, a [directed] flag ([None]: the file has no such key).  Node ids
    are strings, the [gossip-<i>] names of the topology generator. *)
Record TEdge := mkTEdge { source : string; target : string; weight : Q }.

Record Topology := mkTopology {
  nodes : list string;
  edges : list TEdge;
  directed : option bool }.

Abbreviation NeighborMap := (gmap string (list string)).

(** [{node['id']: [] for node in topology['nodes']}] *)
Definition init_neighbor_map (ids : list string) : NeighborMap :=
  foldl (fun m id => <[id := []]> m) ∅ ids.

(** [neighbor_map[key].append(v)]: a [KeyError] when [key] is no node. *)
Definition append_neighbor (m : NeighborMap) (key v : string) : Result NeighborMap :=
  match m !! key with
  | Some l => Ok (<[key := l ++ [v]]> m)
  | None => Raise (String.append "KeyError: " (quoted key))
  end.

(** The loop over [topology['edges']]; [is_directed] is the value of the
    [directed] lookup, evaluated on each edge after the first append. *)
Fixpoint add_edges (is_directed : Result bool) (m : NeighborMap) (es : list TEdge)
    : Result NeighborMap :=
  match es with
  | [] => Ok m
  | e :: rest =>
      match append_neighbor m (source e) (target e) with
      | Raise err => Raise err
      | Ok m1 =>
          match is_directed with
          | Raise err => Raise err
          | Ok true => add_edges is_directed m1 rest
          | Ok false =>
              match append_neighbor m1 (target e) (source e) with
              | Raise err => Raise err
              | Ok m2 => add_edges is_directed m2 rest
              end
          end
      end
  end.

(** [prepare.py]: [topology['directed']]. *)
Definition get_pod_neighbors (topology : Topology) : Result NeighborMap :=
  add_edges (match directed topology with
             | Some b => Ok b
             | None => Raise "KeyError: 'directed'"
             end)
    (init_neighbor_map (nodes topology)) (edges topology).

(** [prepare_new.py]: [topology.get('directed', False)]. *)
Definition get_pod_neighbors_new (topology : Topology) : Result NeighborMap :=
  add_edges (Ok (default false (directed topology)))
    (init_neighbor_map (nodes topology)) (edges topology).

(** The neighbors of [u] listed by a sequence of edges, in edge order: the
    target of each edge leaving [u] and, in an undirected topology, the
    source of each edge entering [u]. *)
Definition neighbors_in (d : bool) (es : list TEdge) (u : string) : list string :=
  flat_map (fun e => (if String.eqb (source e) u then [target e] else []) ++
                     (if negb d && String.eqb (target e) u then [source e] else [])) es.

Definition endpoints_known (d : bool) (m : NeighborMap) (es : list TEdge) : Prop :=
  Forall (fun e => is_Some (m !! source e) /\ (d = false -> is_Some (m !! target e))) es.

Lemma init_neighbor_map_lookup_gen ids : forall (m : NeighborMap) u,
  foldl (fun m id => <[id := []]> m) m ids !! u =
    if decide (u ∈ ids) then Some [] else m !! u.
Proof.
  induction ids as [|id ids IH]; intros m u; cbn.
  - rewrite decide_False; [done|]. apply not_elem_of_nil.
  - rewrite IH. destruct (decide (id = u)) as [<-|Hne].
    + destruct (decide (id ∈ ids)), (decide (id ∈ id :: ids));
        rewrite ?lookup_insert_eq; first [done | set_solver].
    + destruct (decide (u ∈ ids)), (decide (u ∈ id :: ids));
        rewrite ?lookup_insert_ne by done; first [done | set_solver].
Qed.

Lemma init_neighbor_map_lookup ids u :
  init_neighbor_map ids !! u = if decide (u ∈ ids) then Some [] else None.
Proof. unfold init_neighbor_map. rewrite init_neighbor_map_lookup_gen. by rewrite lookup_empty. Qed.

Lemma append_neighbor_ok m key v m1 :
  append_neighbor m key v = Ok m1 ->
  forall u, m1 !! u = (fun l => l ++ (if String.eqb key u then [v] else [])) <$> m !! u.
Proof.
  unfold append_neighbor. destruct (m !! key) as [l|] eqn:Hk; [|discriminate].
  intros [= <-] u. destruct (String.eqb_spec key u) as [<-|Hne].
  - by rewrite lookup_insert_eq, Hk.
  - rewrite lookup_insert_ne by done. destruct (m !! u); cbn; by rewrite ?app_nil_r.
Qed.

Lemma append_neighbor_raise m key v err :
  append_neighbor m key v = Raise err -> m !! key = None.
Proof. unfold append_neighbor. by destruct (m !! key). Qed.

Lemma append_neighbor_total m key v :
  is_Some (m !! key) -> exists m1, append_neighbor m key v = Ok m1.
Proof. unfold append_neighbor. intros [l ->]. eauto. Qed.

Lemma fmap_is_Some_iff {A B} (f : A -> B) (o : option A) : is_Some (f <$> o) <-> is_Some o.
Proof. destruct o; cbn; split; intros []; eauto; discriminate. Qed.

Lemma endpoints_known_ext d (m m' : NeighborMap) es :
  (forall k, is_Some (m' !! k) <-> is_Some (m !! k)) ->
  endpoints_known d m' es <-> endpoints_known d m es.
Proof.
  intros Hk. unfold endpoints_known.
  split; intros H; (eapply Forall_impl; [exact H|]); intros e [Hs Ht];
    (split; [by apply Hk|intros Hd; by apply Hk, Ht]).
Qed.

Lemma add_edges_spec d es : forall m,
  match add_edges (Ok d) m es with
  | Ok m' => endpoints_known d m es /\
             forall u, m' !! u = (fun l => l ++ neighbors_in d es u) <$> m !! u
  | Raise _ => ~ endpoints_known d m es
  end.
Proof.
  induction es as [|e es IH]; intros m; cbn.
  - split; [constructor|]. intros u. destruct (m !! u); cbn; by rewrite ?app_nil_r.
  - destruct (append_neighbor m (source e) (target e)) as [m1|err] eqn:H1.
    2: { apply append_neighbor_raise in H1. intros Hk. apply Forall_cons_1 in Hk as [[Hs _] _].
         rewrite H1 in Hs. by destruct Hs. }
    pose proof (append_neighbor_ok _ _ _ _ H1) as L1.
    assert (S1 : forall k, is_Some (m1 !! k) <-> is_Some (m !! k))
      by (intros k; rewrite L1; apply fmap_is_Some_iff).
    assert (Hsrc : is_Some (m !! source e)).
    { unfold append_neighbor in H1. destruct (m !! source e); [eauto|discriminate]. }
    destruct d.
    + specialize (IH m1). destruct (add_edges (Ok true) m1 es) as [m'|err].
      * destruct IH as [Hk Hl]. split.
        -- constructor; [split; [done|discriminate]|]. by apply (endpoints_known_ext _ _ m1).
        -- intros u. rewrite Hl, L1. destruct (m !! u); cbn; [|done].
           by rewrite <- app_assoc, app_nil_r.
      * intros Hk. apply IH. apply Forall_cons_1 in Hk as [_ Hk].
        by apply (endpoints_known_ext _ m1 m).
    + destruct (append_neighbor m1 (target e) (source e)) as [m2|err] eqn:H2.
      * pose proof (append_neighbor_ok _ _ _ _ H2) as L2.
        assert (S2 : forall k, is_Some (m2 !! k) <-> is_Some (m !! k))
          by (intros k; rewrite L2, fmap_is_Some_iff; apply S1).
        assert (Htgt : is_Some (m !! target e)).
        { apply S1. unfold append_neighbor in H2. destruct (m1 !! target e); [eauto|discriminate]. }
        specialize (IH m2). destruct (add_edges (Ok false) m2 es) as [m'|err].
        -- destruct IH as [Hk Hl]. split.
           ++ constructor; [done|]. by apply (endpoints_known_ext _ _ m2).
           ++ intros u. rewrite Hl, L2, L1. destruct (m !! u); cbn; [|done].
              by rewrite <- !app_assoc.
        -- intros Hk. apply IH. apply Forall_cons_1 in Hk as [_ Hk].
           by apply (endpoints_known_ext _ m2 m).
      * apply append_neighbor_raise in H2. intros Hk. apply Forall_cons_1 in Hk as [[_ Ht] _].
        specialize (Ht eq_refl). apply S1 in Ht. rewrite H2 in Ht. by destruct Ht.
Qed.

Lemma elem_neighbors_in d es u v :
  v ∈ neighbors_in d es u <->
  exists e, e ∈ es /\ ((source e = u /\ target e = v) \/ (d = false /\ target e = u /\ source e = v)).
Proof.
  induction es as [|e es IH].
  - cbn. split; [intros H; by apply elem_of_nil in H|]. intros (e & He & _). by apply elem_of_nil in He.
  - change (neighbors_in d (e :: es) u) with
      (((if String.eqb (source e) u then [target e] else []) ++
        (if negb d && String.eqb (target e) u then [source e] else [])) ++ neighbors_in d es u).
    rewrite !elem_of_app, IH. split.
    + intros [[Hs|Ht]|(e' & He' & Hj)].
      * destruct (String.eqb_spec (source e) u); [|by apply elem_of_nil in Hs].
        apply list_elem_of_singleton in Hs. exists e. split; [apply list_elem_of_here|].
        left; split; congruence.
      * destruct d, (String.eqb_spec (target e) u); cbn in Ht; try by apply elem_of_nil in Ht.
        apply list_elem_of_singleton in Ht. exists e. split; [apply list_elem_of_here|].
        right; split; [done|split; congruence].
      * exists e'. split; [by apply list_elem_of_further|done].
    + intros (e' & He' & Hj). apply elem_of_cons in He' as [->|He'].
      * destruct Hj as [[Hs Hv]|(Hd & Ht & Hv)]; left.
        -- left. rewrite Hs, String.eqb_refl, Hv. apply list_elem_of_here.
        -- right. rewrite Hd, Ht, String.eqb_refl, Hv. apply list_elem_of_here.
      * right. eauto.
Qed.

Lemma endpoints_known_init d ids es :
  endpoints_known d (init_neighbor_map ids) es <->
  Forall (fun e => source e ∈ ids /\ (d = false -> target e ∈ ids)) es.
Proof.
  assert (Hs : forall x, is_Some (init_neighbor_map ids !! x) <-> x ∈ ids).
  { intros x. rewrite init_neighbor_map_lookup.
    destruct (decide (x ∈ ids)) as [Hx|Hx]; split; intros H;
      [done|eauto|destruct H as [? [=]]|done]. }
  unfold endpoints_known. split; intros H; (eapply Forall_impl; [exact H|]);
    intros e [H1 H2]; split.
  - by apply Hs.
  - intros Hd. apply Hs. by apply H2.
  - by apply Hs.
  - intros Hd. apply Hs. by apply H2.
Qed.

Lemma default_directed_false o : default false o = false <-> o <> Some true.
Proof. destruct o as [[]|]; cbn; intuition congruence. Qed.

Lemma pod_neighbors_new_lookup topology m
    (Hok : get_pod_neighbors_new topology = Ok m) u :
  m !! u = if decide (u ∈ nodes topology)
           then Some (neighbors_in (default false (directed topology)) (edges topology) u)
           else None.
Proof.
  unfold get_pod_neighbors_new in Hok.
  pose proof (add_edges_spec (default false (directed topology)) (edges topology)
                (init_neighbor_map (nodes topology))) as H.
  rewrite Hok in H. destruct H as [_ Hl]. rewrite Hl, init_neighbor_map_lookup.
  by destruct (decide (u ∈ nodes topology)).
Qed.

Lemma pod_neighbors_new_ok_iff topology :
  (exists m, get_pod_neighbors_new topology = Ok m) <->
  Forall (fun e => source e ∈ nodes topology /\
                   (directed topology <> Some true -> target e ∈ nodes topology))
    (edges topology).
Proof.
  unfold get_pod_neighbors_new.
  pose proof (add_edges_spec (default false (directed topology)) (edges topology)
                (init_neighbor_map (nodes topology))) as H.
  assert (Heq : Forall (fun e => source e ∈ nodes topology /\
                   (default false (directed topology) = false -> target e ∈ nodes topology))
                  (edges topology) <->
                Forall (fun e => source e ∈ nodes topology /\
                   (directed topology <> Some true -> target e ∈ nodes topology))
                  (edges topology)).
  { split; intros F; (eapply Forall_impl; [exact F|]); intros e [H1 H2];
      split; [done| |done|]; intros Hd; apply H2; by apply default_directed_false. }
  rewrite <- Heq, <- endpoints_known_init.
  destruct (add_edges _ _ _) as [m|err].
  - split; [intros _; tauto|eauto].
  - split; [intros [m' Hm']; discriminate|done].
Qed.

(** On success, [prepare_new.py]'s [get_pod_neighbors] maps exactly the
    topology's nodes, each to the list of its neighbors in edge order: the
    target of each edge leaving it and, unless the topology is directed, the
    source of each edge entering it; a repeated edge repeats the neighbor. *)
Theorem get_pod_neighbors_new_lookup topology m
    (Hok : get_pod_neighbors_new topology = Ok m) u :
  m !! u = if decide (u ∈ nodes topology)
           then Some (neighbors_in (default false (directed topology)) (edges topology) u)
           else None.
Proof. exact (pod_neighbors_new_lookup topology m Hok u). Qed.

Lemma append_neighbor_raise_text m key v err :
  append_neighbor m key v = Raise err ->
  m !! key = None /\ err = String.append "KeyError: " (quoted key).
Proof. unfold append_neighbor. destruct (m !! key); [discriminate|]. by intros [= <-]. Qed.

Lemma add_edges_raise d es : forall (m : NeighborMap) err,
  add_edges (Ok d) m es = Raise err ->
  exists e key, e ∈ es /\ m !! key = None /\
    (key = source e \/ (d = false /\ key = target e)) /\
    err = String.append "KeyError: " (quoted key).
Proof.
  induction es as [|e es IH]; intros m err; cbn; [discriminate|].
  destruct (append_neighbor m (source e) (target e)) as [m1|err1] eqn:H1.
  2: { intros [= <-]. apply append_neighbor_raise_text in H1 as [Hn Herr].
       exists e, (source e). split; [apply list_elem_of_here|]. auto. }
  pose proof (append_neighbor_ok _ _ _ _ H1) as L1.
  assert (Back : forall k, m1 !! k = None -> m !! k = None)
    by (intros k Hk; rewrite L1 in Hk; by apply fmap_None in Hk).
  assert (Later : forall (m' : NeighborMap), (forall k, m' !! k = None -> m !! k = None) ->
            add_edges (Ok d) m' es = Raise err -> exists e0 key, e0 ∈ e :: es /\ m !! key = None /\
              (key = source e0 \/ (d = false /\ key = target e0)) /\
              err = String.append "KeyError: " (quoted key)).
  { intros m' Hb Hr. destruct (IH m' err Hr) as (e' & key & He' & Hk & Hkey & Herr).
    exists e', key. split; [by apply list_elem_of_further|]. auto. }
  destruct d; [by apply (Later m1)|].
  destruct (append_neighbor m1 (target e) (source e)) as [m2|err2] eqn:H2.
  - apply (Later m2). intros k Hk. apply Back.
    pose proof (append_neighbor_ok _ _ _ _ H2 k) as L2. rewrite L2 in Hk. by apply fmap_None in Hk.
  - intros [= <-]. apply append_neighbor_raise_text in H2 as [Hn Herr].
    exists e, (target e). split; [apply list_elem_of_here|]. auto.
Qed.

Lemma pod_neighbors_new_raise topology err :
  get_pod_neighbors_new topology = Raise err ->
  exists e key, e ∈ edges topology /\ (key ∉ nodes topology) /\
    (key = source e \/ (directed topology <> Some true /\ key = target e)) /\
    err = String.append "KeyError: " (quoted key).
Proof.
  unfold get_pod_neighbors_new. intros Hr.
  destruct (add_edges_raise _ _ _ _ Hr) as (e & key & He & Hk & Hkey & Herr).
  exists e, key. rewrite init_neighbor_map_lookup in Hk.
  destruct (decide (key ∈ nodes topology)) as [_|Hn]; [discriminate|].
  split; [done|]. split; [done|]. split; [|done].
  destruct Hkey as [?|[Hd ?]]; [by left|right]. split; [|done].
  by apply default_directed_false.
Qed.

(** [prepare_new.py]'s [get_pod_neighbors] succeeds exactly when every
    edge's source is a node and, unless the topology is directed, every
    edge's target is a node; otherwise it raises [KeyError] naming an
    endpoint of some edge that is not a node: a source, or the target of an
    edge of an undirected topology. *)
Theorem get_pod_neighbors_new_ok_iff topology :
  ((exists m, get_pod_neighbors_new topology = Ok m) <->
   Forall (fun e => source e ∈ nodes topology /\
                    (directed topology <> Some true -> target e ∈ nodes topology))
     (edges topology)) /\
  (forall err, get_pod_neighbors_new topology = Raise err ->
   exists e key, e ∈ edges topology /\ (key ∉ nodes topology) /\
     (key = source e \/ (directed topology <> Some true /\ key = target e)) /\
     err = String.append "KeyError: " (quoted key)).
Proof. split; [apply pod_neighbors_new_ok_iff|apply pod_neighbors_new_raise]. Qed.

Lemma get_pod_neighbors_new_adj topology m (Hok : get_pod_neighbors_new topology = Ok m) u v :
  v ∈ default [] (m !! u) <->
  exists e, e ∈ edges topology /\
    ((source e = u /\ target e = v) \/
     (directed topology <> Some true /\ target e = u /\ source e = v)).
Proof.
  assert (Hk : Forall (fun e => source e ∈ nodes topology /\
                 (directed topology <> Some true -> target e ∈ nodes topology))
                 (edges topology)) by (apply pod_neighbors_new_ok_iff; eauto).
  rewrite (pod_neighbors_new_lookup _ _ Hok u).
  destruct (decide (u ∈ nodes topology)) as [Hu|Hu]; cbn.
  - rewrite elem_neighbors_in. setoid_rewrite default_directed_false. done.
  - split; [intros H; by apply elem_of_nil in H|].
    intros (e & He & Hj). exfalso. rewrite Forall_forall in Hk.
    destruct (Hk e He) as [Hs Ht].
    destruct Hj as [[<- _]|(Hd & <- & _)]; [done|]. by apply Hu, Ht.
Qed.

(** In a topology that is not directed, the neighbor map built by
    [prepare_new.py] is symmetric: [v] is listed for [u] exactly when [u]
    is listed for [v]. *)
Theorem get_pod_neighbors_new_symmetric topology m
    (Hok : get_pod_neighbors_new topology = Ok m)
    (Hund : directed topology <> Some true) u v :
  v ∈ default [] (m !! u) <-> u ∈ default [] (m !! v).
Proof.
  rewrite !(get_pod_neighbors_new_adj _ _ Hok).
  split; intros (e & He & Hj); exists e; split; [done| |done|]; tauto.
Qed.

(** [prepare.py]'s [get_pod_neighbors] reads [topology['directed']] on each
    edge: with the key present it builds the same map as [prepare_new.py];
    without it, it succeeds only on a topology with no edges. *)
Theorem get_pod_neighbors_directed_key topology :
  (forall b, directed topology = Some b ->
     get_pod_neighbors topology = get_pod_neighbors_new topology) /\
  (directed topology = None ->
     ((exists m, get_pod_neighbors topology = Ok m) <-> edges topology = [])).
Proof.
  unfold get_pod_neighbors, get_pod_neighbors_new. split.
  - intros b ->. reflexivity.
  - intros ->. destruct (edges topology) as [|e es]; cbn.
    + split; eauto.
    + split; [|discriminate]. intros [m Hm].
      destruct (append_neighbor _ (source e) (target e)); discriminate.
Qed.

(** ** [get_pod_mapping]

    [get_pod_dplymt] lists the pods as [(index, pod_name, pod_ip)]; pod
    [index] plays topology node [gossip-<index>]. *)
Abbreviation Deployment := (list (nat * string * string)).

Definition gossip_id (index : nat) : string := String.append "gossip-" (pretty index).

(** [{f'gossip-{index}': ip for index, _, ip in pod_deployment}] *)
Definition gossip_id_to_ip (pod_deployment : Deployment) : gmap string string :=
  foldl (fun m '(index, _, ip) => <[gossip_id index := ip]> m) ∅ pod_deployment.

(** [prepare.py]: [(s, t) if s < t else (t, s)]. *)
Definition edge_key (s t : string) : string * string :=
  if String.ltb s t then (s, t) else (t, s).

(** [prepare_new.py]: [tuple(sorted((s, t)))]. *)
Definition sorted_pair (s t : string) : string * string :=
  if String.ltb t s then (t, s) else (s, t).

(** The loop filling [edge_weights_lookup], with the script's key. *)
Definition edge_weights_lookup (key : string -> string -> string * string)
    (es : list TEdge) : gmap (string * string) Q :=
  foldl (fun m e => <[key (source e) (target e) := weight e]> m) ∅ es.

(** The inner loop: each neighbor that is a deployed gossip id contributes
    its pod's IP and [edge_weights_lookup.get(key, 0)]. *)
Definition weighted_neighbors (key : string -> string -> string * string)
    (id_to_ip : gmap string string) (lookup : gmap (string * string) Q)
    (gossip_id : string) (neighbors : list string) : list (string * Q) :=
  omap (fun n => match id_to_ip !! n with
                 | Some ip => Some (ip, default 0%Q (lookup !! key gossip_id n))
                 | None => None
                 end) neighbors.

(** [prepare.py]: a pod whose gossip id is not in [pod_neighbors] gets no
    entry. *)
Definition get_pod_mapping (pod_deployment : Deployment) (pod_neighbors : NeighborMap)
    (pod_topology : Topology) : gmap string (list (string * Q)) :=
  let id_to_ip := gossip_id_to_ip pod_deployment in
  let lookup := edge_weights_lookup edge_key (edges pod_topology) in
  foldl (fun result '(index, deployment_name, _) =>
           match pod_neighbors !! gossip_id index with
           | Some nbrs =>
               <[deployment_name :=
                   weighted_neighbors edge_key id_to_ip lookup (gossip_id index) nbrs]> result
           | None => result
           end) ∅ pod_deployment.

(** [prepare_new.py]: every pod gets an entry, empty when its gossip id is
    not in [pod_neighbors]. *)
Definition get_pod_mapping_new (pod_deployment : Deployment) (pod_neighbors : NeighborMap)
    (pod_topology : Topology) : gmap string (list (string * Q)) :=
  let id_to_ip := gossip_id_to_ip pod_deployment in
  let lookup := edge_weights_lookup sorted_pair (edges pod_topology) in
  foldl (fun result '(index, deployment_name, _) =>
           <[deployment_name :=
               match pod_neighbors !! gossip_id index with
               | Some nbrs =>
                   weighted_neighbors sorted_pair id_to_ip lookup (gossip_id index) nbrs
               | None => []
               end]> result) ∅ pod_deployment.

Definition pod_index (p : nat * string * string) : nat := let '(i, _, _) := p in i.
Definition pod_name (p : nat * string * string) : string := let '(_, n, _) := p in n.
Definition pod_ip (p : nat * string * string) : string := let '(_, _, ip) := p in ip.

(** Edge [e] joins [s] and [t], in either direction. *)
Definition joins (e : TEdge) (s t : string) : Prop :=
  (source e = s /\ target e = t) \/ (source e = t /\ target e = s).

Lemma string_ltb_irrefl s : String.ltb s s = false.
Proof.
  unfold String.ltb. pose proof (String.compare_antisym s s) as H.
  by destruct (String.compare s s).
Qed.

Lemma string_ltb_flip s t : s <> t -> String.ltb s t = false -> String.ltb t s = true.
Proof.
  unfold String.ltb. rewrite (String.compare_antisym t s).
  destruct (String.compare s t) eqn:Hc; cbn; try done.
  apply String.compare_eq_iff in Hc. done.
Qed.

Lemma string_ltb_asym s t : String.ltb s t = true -> String.ltb t s = false.
Proof.
  unfold String.ltb. rewrite (String.compare_antisym t s).
  by destruct (String.compare s t).
Qed.

Lemma edge_key_sym s t : edge_key s t = edge_key t s.
Proof.
  unfold edge_key. destruct (decide (s = t)) as [->|Hne]; [done|].
  destruct (String.ltb s t) eqn:H1.
  - by rewrite (string_ltb_asym _ _ H1).
  - by rewrite (string_ltb_flip _ _ Hne H1).
Qed.

Lemma edge_key_sorted_pair s t : edge_key s t = sorted_pair s t.
Proof.
  unfold edge_key, sorted_pair. destruct (decide (s = t)) as [->|Hne].
  - by rewrite string_ltb_irrefl.
  - destruct (String.ltb s t) eqn:H1.
    + by rewrite (string_ltb_asym _ _ H1).
    + by rewrite (string_ltb_flip _ _ Hne H1).
Qed.

Lemma edge_key_eq_iff a b s t : edge_key a b = edge_key s t <-> (a = s /\ b = t) \/ (a = t /\ b = s).
Proof.
  split.
  - unfold edge_key. destruct (String.ltb a b), (String.ltb s t); intros [= -> ->]; tauto.
  - intros [[-> ->]|[-> ->]]; [done|apply edge_key_sym].
Qed.

Lemma edge_weights_lookup_key es :
  edge_weights_lookup edge_key es = edge_weights_lookup sorted_pair es.
Proof.
  unfold edge_weights_lookup. generalize (∅ : gmap (string * string) Q).
  induction es as [|e es IH]; intros m; cbn; [done|].
  rewrite edge_key_sorted_pair. apply IH.
Qed.

Lemma edge_weights_lookup_skip es : forall (m : gmap (string * string) Q) s t,
  Forall (fun e => ~ joins e s t) es ->
  foldl (fun m e => <[edge_key (source e) (target e) := weight e]> m) m es !! edge_key s t =
  m !! edge_key s t.
Proof.
  induction es as [|e es IH]; intros m s t Hn; cbn; [done|].
  apply Forall_cons_1 in Hn as [Hj Hn]. rewrite IH by done.
  rewrite lookup_insert_ne; [done|]. intros He. apply Hj. by apply edge_key_eq_iff.
Qed.

Section FoldInsert.
Context {A V : Type} (k : A -> string) (f : A -> option V)
  (step : gmap string V -> A -> gmap string V).
Hypothesis Hstep : forall r x, step r x = match f x with Some y => <[k x := y]> r | None => r end.

Lemma foldl_insert_other l : forall r name,
  name ∉ map k l -> foldl step r l !! name = r !! name.
Proof.
  induction l as [|x l IH]; intros r name Hn; cbn; [done|].
  rewrite IH by (intros H; apply Hn; cbn; by apply list_elem_of_further).
  rewrite Hstep. destruct (f x); [|done].
  rewrite lookup_insert_ne; [done|]. intros <-. apply Hn. cbn. apply list_elem_of_here.
Qed.

Lemma foldl_insert_member l : NoDup (map k l) -> forall r x, x ∈ l ->
  foldl step r l !! k x = match f x with Some y => Some y | None => r !! k x end.
Proof.
  induction l as [|x0 l IH]; intros Hnd r x Hx; [by apply elem_of_nil in Hx|].
  cbn in Hnd. apply NoDup_cons in Hnd as [Hk0 Hnd]. cbn.
  apply elem_of_cons in Hx as [<-|Hx].
  - rewrite foldl_insert_other by done. rewrite Hstep.
    destruct (f x); [by rewrite lookup_insert_eq|done].
  - rewrite IH by done. destruct (f x); [done|]. rewrite Hstep.
    destruct (f x0); [|done]. rewrite lookup_insert_ne; [done|].
    intros He. apply Hk0. rewrite He. apply list_elem_of_In, in_map, list_elem_of_In, Hx.
Qed.
End FoldInsert.

Lemma string_append_cancel_l p x y : String.append p x = String.append p y -> x = y.
Proof. induction p as [|c p IH]; cbn; [done|]. intros H. injection H. apply IH. Qed.

Lemma gossip_id_inj i j : gossip_id i = gossip_id j -> i = j.
Proof. unfold gossip_id. intros H. apply string_append_cancel_l in H. by apply (inj pretty). Qed.

Lemma NoDup_map_inj {A B} (g : A -> B) (l : list A) :
  (forall x y, g x = g y -> x = y) -> NoDup l -> NoDup (map g l).
Proof.
  intros Hg. induction 1 as [|x l Hx Hl IH]; cbn; constructor; [|done].
  intros Hin. apply list_elem_of_In, in_map_iff in Hin as (y & Hy & Hyl).
  apply Hg in Hy as ->. apply Hx, list_elem_of_In, Hyl.
Qed.

Lemma NoDup_map_same {A B} (g : A -> B) (l : list A) x y :
  NoDup (map g l) -> x ∈ l -> y ∈ l -> g x = g y -> x = y.
Proof.
  induction l as [|z l IH]; intros Hnd Hx Hy Hg; [by apply elem_of_nil in Hx|].
  cbn in Hnd. apply NoDup_cons in Hnd as [Hz Hnd].
  apply elem_of_cons in Hx as [->|Hx], Hy as [->|Hy]; try done.
  - exfalso. apply Hz. rewrite Hg. apply list_elem_of_In, in_map, list_elem_of_In, Hy.
  - exfalso. apply Hz. rewrite <- Hg. apply list_elem_of_In, in_map, list_elem_of_In, Hx.
  - by apply IH.
Qed.

Lemma gossip_id_to_ip_member dep (Hidx : NoDup (map pod_index dep)) p :
  p ∈ dep -> gossip_id_to_ip dep !! gossip_id (pod_index p) = Some (pod_ip p).
Proof.
  intros Hp. unfold gossip_id_to_ip.
  rewrite (foldl_insert_member (fun p => gossip_id (pod_index p)) (fun p => Some (pod_ip p)));
    [done| |by rewrite <- map_map; apply NoDup_map_inj; [apply gossip_id_inj|]|done].
  by intros r [[i n] ip].
Qed.

Lemma gossip_id_to_ip_Some dep (Hidx : NoDup (map pod_index dep)) n ip :
  gossip_id_to_ip dep !! n = Some ip ->
  exists p, p ∈ dep /\ n = gossip_id (pod_index p) /\ ip = pod_ip p.
Proof.
  intros H. destruct (decide (n ∈ map (fun p => gossip_id (pod_index p)) dep)) as [Hn|Hn].
  - apply list_elem_of_In, in_map_iff in Hn as (p & <- & Hp). apply list_elem_of_In in Hp.
    rewrite (gossip_id_to_ip_member dep Hidx p Hp) in H. injection H as <-. eauto.
  - unfold gossip_id_to_ip in H.
    rewrite (foldl_insert_other (fun p => gossip_id (pod_index p)) (fun p => Some (pod_ip p)))
      in H; [by rewrite lookup_empty in H|by intros r [[i m] ip']|done].
Qed.

Lemma weighted_neighbors_key id_to_ip lookup g nbrs :
  weighted_neighbors edge_key id_to_ip lookup g nbrs =
  weighted_neighbors sorted_pair id_to_ip lookup g nbrs.
Proof.
  unfold weighted_neighbors. induction nbrs as [|n nbrs IH]; cbn; [done|].
  rewrite edge_key_sorted_pair, IH. done.
Qed.

Lemma elem_weighted_neighbors key id_to_ip lookup g nbrs ip w :
  (ip, w) ∈ weighted_neighbors key id_to_ip lookup g nbrs <->
  exists n, n ∈ nbrs /\ id_to_ip !! n = Some ip /\ w = default 0%Q (lookup !! key g n).
Proof.
  unfold weighted_neighbors. rewrite list_elem_of_omap. split.
  - intros (n & Hn & Hf). destruct (id_to_ip !! n) eqn:He; [|discriminate].
    injection Hf as <- <-. eauto.
  - intros (n & Hn & He & ->). exists n. by rewrite He.
Qed.

Lemma get_pod_mapping_member dep pn topo (Hnd : NoDup (map pod_name dep)) p :
  p ∈ dep ->
  get_pod_mapping dep pn topo !! pod_name p =
    (fun nbrs => weighted_neighbors edge_key (gossip_id_to_ip dep)
                   (edge_weights_lookup edge_key (edges topo)) (gossip_id (pod_index p)) nbrs)
    <$> pn !! gossip_id (pod_index p).
Proof.
  intros Hp. unfold get_pod_mapping.
  rewrite (foldl_insert_member pod_name
             (fun p => (fun nbrs => weighted_neighbors edge_key (gossip_id_to_ip dep)
                   (edge_weights_lookup edge_key (edges topo)) (gossip_id (pod_index p)) nbrs)
                       <$> pn !! gossip_id (pod_index p))); [| |done|done].
  - by destruct (pn !! gossip_id (pod_index p)).
  - intros r [[i n] ip]. cbn. by destruct (pn !! gossip_id i).
Qed.

Lemma get_pod_mapping_new_member dep pn topo (Hnd : NoDup (map pod_name dep)) p :
  p ∈ dep ->
  get_pod_mapping_new dep pn topo !! pod_name p =
    Some (match pn !! gossip_id (pod_index p) with
          | Some nbrs => weighted_neighbors sorted_pair (gossip_id_to_ip dep)
                   (edge_weights_lookup sorted_pair (edges topo)) (gossip_id (pod_index p)) nbrs
          | None => []
          end).
Proof.
  intros Hp. unfold get_pod_mapping_new.
  rewrite (foldl_insert_member pod_name
             (fun p => Some (match pn !! gossip_id (pod_index p) with
          | Some nbrs => weighted_neighbors sorted_pair (gossip_id_to_ip dep)
                   (edge_weights_lookup sorted_pair (edges topo)) (gossip_id (pod_index p)) nbrs
          | None => []
          end))); [done| |done|done].
  by intros r [[i n] ip].
Qed.

Lemma foldl_insert_is_Some {A V} (k : A -> string) (f : A -> option V)
    (step : gmap string V -> A -> gmap string V)
    (Hstep : forall r x, step r x = match f x with Some y => <[k x := y]> r | None => r end)
    l : forall r name,
  is_Some (foldl step r l !! name) <->
  is_Some (r !! name) \/ exists x, x ∈ l /\ k x = name /\ is_Some (f x).
Proof.
  induction l as [|x l IH]; intros r name; cbn.
  - split; [tauto|]. intros [H|(x & Hx & _)]; [done|by apply elem_of_nil in Hx].
  - rewrite IH, Hstep. split.
    + intros [H|(y & Hy & Hk & Hf)].
      * destruct (f x) as [v|] eqn:Hfx; [|tauto].
        destruct (decide (k x = name)) as [<-|Hne].
        -- right. exists x. split; [apply list_elem_of_here|eauto].
        -- left. by rewrite lookup_insert_ne in H.
      * right. exists y. split; [by apply list_elem_of_further|eauto].
    + intros [H|(y & Hy & Hk & Hf)].
      * left. destruct (f x); [|done].
        destruct (decide (k x = name)) as [<-|Hne]; [rewrite lookup_insert_eq; eauto|].
        by rewrite lookup_insert_ne.
      * apply elem_of_cons in Hy as [->|Hy]; [|right; eauto].
        left. destruct Hf as [v Hv]. rewrite Hv, Hk, lookup_insert_eq. eauto.
Qed.

(** [edge_weights_lookup] of [prepare.py] gives the pair [s, t] the weight of
    the last edge listed between them, in either direction, and has no entry
    for a pair that no edge joins. *)
Theorem edge_weights_lookup_last es s t :
  (Forall (fun e => ~ joins e s t) es ->
     edge_weights_lookup edge_key es !! edge_key s t = None) /\
  (forall es1 e es2, es = es1 ++ e :: es2 -> joins e s t ->
     Forall (fun e' => ~ joins e' s t) es2 ->
     edge_weights_lookup edge_key es !! edge_key s t = Some (weight e)).
Proof.
  unfold edge_weights_lookup. split.
  - intros Hn. rewrite edge_weights_lookup_skip by done. apply lookup_empty.
  - intros es1 e es2 -> Hj Hn. rewrite foldl_app. cbn.
    rewrite edge_weights_lookup_skip by done.
    rewrite (proj2 (edge_key_eq_iff _ _ s t) Hj). apply lookup_insert_eq.
Qed.

(** [prepare.py]'s [get_pod_mapping] has an entry for a pod name exactly
    when some deployed pod of that name has its gossip id in the neighbor
    map; pods outside the topology are left out. *)
Theorem get_pod_mapping_keys pod_deployment pod_neighbors pod_topology name :
  is_Some (get_pod_mapping pod_deployment pod_neighbors pod_topology !! name) <->
  exists p, p ∈ pod_deployment /\ pod_name p = name /\
            is_Some (pod_neighbors !! gossip_id (pod_index p)).
Proof.
  unfold get_pod_mapping.
  rewrite (foldl_insert_is_Some pod_name
             (fun p => (fun nbrs => weighted_neighbors edge_key (gossip_id_to_ip pod_deployment)
                   (edge_weights_lookup edge_key (edges pod_topology))
                   (gossip_id (pod_index p)) nbrs)
                       <$> pod_neighbors !! gossip_id (pod_index p))).
  - rewrite lookup_empty. split.
    + intros [H|(p & Hp & Hk & Hf)]; [by destruct H|]. exists p.
      by rewrite fmap_is_Some_iff in Hf.
    + intros (p & Hp & Hk & Hf). right. exists p. by rewrite fmap_is_Some_iff.
  - intros r [[i n] ip]. cbn. by destruct (pod_neighbors !! gossip_id i).
Qed.

(** With distinct pod names, [prepare_new.py]'s [get_pod_mapping] gives
    every deployed pod an entry: the one of [prepare.py] (whose weight
    table, keyed with [sorted], is the same), or the empty list for a pod
    [prepare.py] leaves out. *)
Theorem get_pod_mapping_new_vs_old pod_deployment pod_neighbors pod_topology
    (Hnd : NoDup (map pod_name pod_deployment)) name :
  get_pod_mapping_new pod_deployment pod_neighbors pod_topology !! name =
  if decide (name ∈ map pod_name pod_deployment)
  then Some (default [] (get_pod_mapping pod_deployment pod_neighbors pod_topology !! name))
  else None.
Proof.
  destruct (decide (name ∈ map pod_name pod_deployment)) as [Hn|Hn].
  - apply list_elem_of_In, in_map_iff in Hn as (p & <- & Hp). apply list_elem_of_In in Hp.
    rewrite get_pod_mapping_new_member, get_pod_mapping_member by done.
    destruct (pod_neighbors !! gossip_id (pod_index p)); cbn; [|done].
    by rewrite weighted_neighbors_key, edge_weights_lookup_key.
  - unfold get_pod_mapping_new.
    rewrite (foldl_insert_other pod_name
             (fun p => Some (match pod_neighbors !! gossip_id (pod_index p) with
          | Some nbrs => weighted_neighbors sorted_pair (gossip_id_to_ip pod_deployment)
                   (edge_weights_lookup sorted_pair (edges pod_topology))
                   (gossip_id (pod_index p)) nbrs
          | None => []
          end))); [apply lookup_empty|by intros r [[i n] ip]|done].
Qed.

Lemma get_pod_mapping_new_link dep pn topo
    (Hidx : NoDup (map pod_index dep)) (Hname : NoDup (map pod_name dep))
    (Hip : NoDup (map pod_ip dep)) pa pb (Ha : pa ∈ dep) (Hb : pb ∈ dep) w :
  (pod_ip pb, w) ∈ default [] (get_pod_mapping_new dep pn topo !! pod_name pa) <->
  gossip_id (pod_index pb) ∈ default [] (pn !! gossip_id (pod_index pa)) /\
  w = default 0%Q (edge_weights_lookup sorted_pair (edges topo) !!
                     sorted_pair (gossip_id (pod_index pa)) (gossip_id (pod_index pb))).
Proof.
  rewrite get_pod_mapping_new_member by done. cbn [default].
  destruct (pn !! gossip_id (pod_index pa)) as [nbrs|]; cbn [default id].
  - rewrite elem_weighted_neighbors. split.
    + intros (n & Hn & Hn_ip & ->).
      destruct (gossip_id_to_ip_Some dep Hidx n _ Hn_ip) as (p' & Hp' & -> & Heq).
      rewrite (NoDup_map_same pod_ip dep p' pb Hip Hp' Hb (eq_sym Heq)) in Hn |- *. done.
    + intros [Hn ->]. exists (gossip_id (pod_index pb)).
      split; [done|]. split; [by apply gossip_id_to_ip_member|done].
  - split; [intros H; by apply elem_of_nil in H|intros [H _]; by apply elem_of_nil in H].
Qed.

(** End to end in [prepare_new.py]: for a topology that is not directed and
    a deployment whose indices, names and IPs are distinct, the neighbor
    lists pushed to the pods are symmetric: pod [a]'s list holds pod [b]'s
    IP with weight [w] exactly when pod [b]'s list holds pod [a]'s IP with
    the same weight. *)
Theorem get_pod_mapping_new_symmetric topology pod_neighbors pod_deployment
    (Hok : get_pod_neighbors_new topology = Ok pod_neighbors)
    (Hund : directed topology <> Some true)
    (Hidx : NoDup (map pod_index pod_deployment))
    (Hname : NoDup (map pod_name pod_deployment))
    (Hip : NoDup (map pod_ip pod_deployment))
    pa pb (Ha : pa ∈ pod_deployment) (Hb : pb ∈ pod_deployment) w :
  (pod_ip pb, w) ∈
    default [] (get_pod_mapping_new pod_deployment pod_neighbors topology !! pod_name pa) <->
  (pod_ip pa, w) ∈
    default [] (get_pod_mapping_new pod_deployment pod_neighbors topology !! pod_name pb).
Proof.
  rewrite !get_pod_mapping_new_link by done.
  rewrite !(get_pod_neighbors_new_adj _ _ Hok).
  rewrite <- !edge_key_sorted_pair, (edge_key_sym (gossip_id (pod_index pb))).
  split; intros [(e & He & Hj) Hw]; (split; [|done]); exists e; (split; [done|]); tauto.
Qed.

(** A three-node ring, undirected by default, deployed on three pods. *)
Definition topo_ring : Topology :=
  mkTopology ["gossip-0"; "gossip-1"; "gossip-2"]
    [mkTEdge "gossip-0" "gossip-1" 5; mkTEdge "gossip-1" "gossip-2" 7;
     mkTEdge "gossip-2" "gossip-0" 3] None.

Definition ring_neighbors : NeighborMap :=
  match get_pod_neighbors_new topo_ring with Ok m => m | Raise _ => ∅ end.

Definition ring_deployment : Deployment :=
  [(0%nat, "gossip-statefulset-0", "10.244.0.5");
   (1%nat, "gossip-statefulset-1", "10.244.0.6");
   (2%nat, "gossip-statefulset-2", "10.244.0.7")].

Lemma get_pod_neighbors_new_lookup_witness :
  get_pod_neighbors_new topo_ring = Ok ring_neighbors /\
  ring_neighbors !! "gossip-0" =
    if decide ("gossip-0" ∈ nodes topo_ring)
    then Some (neighbors_in (default false (directed topo_ring)) (edges topo_ring) "gossip-0")
    else None.
Proof.
  assert (Hok : get_pod_neighbors_new topo_ring = Ok ring_neighbors) by reflexivity.
  split; [exact Hok|]. exact (get_pod_neighbors_new_lookup topo_ring ring_neighbors Hok "gossip-0").
Defined.

Lemma get_pod_neighbors_new_symmetric_witness :
  get_pod_neighbors_new topo_ring = Ok ring_neighbors /\ directed topo_ring <> Some true /\
  ("gossip-1" ∈ default [] (ring_neighbors !! "gossip-0") <->
   "gossip-0" ∈ default [] (ring_neighbors !! "gossip-1")).
Proof.
  assert (Hok : get_pod_neighbors_new topo_ring = Ok ring_neighbors) by reflexivity.
  assert (Hund : directed topo_ring <> Some true) by discriminate.
  split; [exact Hok|]. split; [exact Hund|].
  exact (get_pod_neighbors_new_symmetric topo_ring ring_neighbors Hok Hund "gossip-0" "gossip-1").
Defined.

Lemma get_pod_mapping_new_vs_old_witness :
  NoDup (map pod_name ring_deployment) /\
  get_pod_mapping_new ring_deployment ring_neighbors topo_ring !! "gossip-statefulset-1" =
  if decide ("gossip-statefulset-1" ∈ map pod_name ring_deployment)
  then Some (default [] (get_pod_mapping ring_deployment ring_neighbors topo_ring
                           !! "gossip-statefulset-1"))
  else None.
Proof.
  assert (Hnd : NoDup (map pod_name ring_deployment))
    by (apply (bool_decide_unpack _); by vm_compute).
  split; [exact Hnd|].
  exact (get_pod_mapping_new_vs_old ring_deployment ring_neighbors topo_ring Hnd
           "gossip-statefulset-1").
Defined.

Lemma get_pod_mapping_new_symmetric_witness :
  get_pod_neighbors_new topo_ring = Ok ring_neighbors /\
  directed topo_ring <> Some true /\
  NoDup (map pod_index ring_deployment) /\ NoDup (map pod_name ring_deployment) /\
  NoDup (map pod_ip ring_deployment) /\
  (0%nat, "gossip-statefulset-0", "10.244.0.5") ∈ ring_deployment /\
  (2%nat, "gossip-statefulset-2", "10.244.0.7") ∈ ring_deployment /\
  (("10.244.0.7", 3%Q) ∈
     default [] (get_pod_mapping_new ring_deployment ring_neighbors topo_ring
                   !! "gossip-statefulset-0") <->
   ("10.244.0.5", 3%Q) ∈
     default [] (get_pod_mapping_new ring_deployment ring_neighbors topo_ring
                   !! "gossip-statefulset-2")).
Proof.
  assert (Hok : get_pod_neighbors_new topo_ring = Ok ring_neighbors) by reflexivity.
  assert (Hund : directed topo_ring <> Some true) by discriminate.
  assert (Hidx : NoDup (map pod_index ring_deployment))
    by (apply (bool_decide_unpack _); by vm_compute).
  assert (Hname : NoDup (map pod_name ring_deployment))
    by (apply (bool_decide_unpack _); by vm_compute).
  assert (Hip : NoDup (map pod_ip ring_deployment))
    by (apply (bool_decide_unpack _); by vm_compute).
  assert (Ha : (0%nat, "gossip-statefulset-0", "10.244.0.5") ∈ ring_deployment)
    by apply list_elem_of_here.
  assert (Hb : (2%nat, "gossip-statefulset-2", "10.244.0.7") ∈ ring_deployment)
    by (apply list_elem_of_further, list_elem_of_further, list_elem_of_here).
  repeat (split; [assumption|]).
  exact (get_pod_mapping_new_symmetric topo_ring ring_neighbors ring_deployment
           Hok Hund Hidx Hname Hip _ _ Ha Hb 3%Q).
Defined.
